(** * Three-way merge of user keybindings (keybindingsMerge.ts)

    A shallow embedding of the merge engine: grouping of keybinding records
    by canonical key and by command, the compare primitives, the equality
    predicates, the two-level merge resolution and the assembly of the
    merged text through positional edits.

    JavaScript [Map]s and [Set]s iterate in insertion order and the order
    of iteration decides the order of the edits, so a [Map] is an
    association list in insertion order and a [Set] a duplicate-free list
    in insertion order.  A lookup [normalizedKeys[k]] that misses yields
    [undefined], modelled as [None]. *)

From Stdlib Require Import ZArith String Ascii.
From stdpp Require Import base list strings gmap.

#[local] Open Scope string_scope.
#[local] Open Scope list_scope.
#[local] Open Scope Z_scope.
#[local] Open Scope nat_scope.

(** ** Data model *)

(** [IUserFriendlyKeybinding]: [{ key; command; when?; args? }].  The key
    field has type [K]: a raw record carries a string, a record whose key
    was rewritten by [{ ...keybinding, ...{ key } }] carries the result of
    a table lookup ([string] or [undefined]).  [A] is the type of [args]
    values ([any], [undefined] included). *)
Record IUserFriendlyKeybinding (A K : Type) := Keybinding {
  key : K;
  command : string;
  when : option string;
  args : A
}.
Arguments Keybinding {A K} _ _ _ _.
Arguments key {A K} _.
Arguments command {A K} _.
Arguments when {A K} _.
Arguments args {A K} _.

(** The collaborators imported by the module and defined elsewhere:
    [objects.equals], [ContextKeyExpr.deserialize] and the [equals] method
    of an expression, [parse] of vs/base/common/json, [contentUtil.edit]
    and [contentUtil.getEol]. A JSON path is a list of indices. *)
Class Collaborators := {
  Args : Type;
  Expr : Type;
  objects_equals : Args -> Args -> bool;
  deserialize : option string -> option Expr;
  expr_equals : Expr -> Expr -> bool;
  parse : string -> list (IUserFriendlyKeybinding Args string);
  edit : string -> string -> list Z ->
         option (IUserFriendlyKeybinding Args string) -> string;
  getEol : string -> string
}.

(** [ICompareResult]: three sets of grouping keys. *)
Record ICompareResult (K : Type) := CompareResult {
  added : list K;
  removed : list K;
  updated : list K
}.
Arguments CompareResult {K} _ _ _.
Arguments added {K} _.
Arguments removed {K} _.
Arguments updated {K} _.

(** The value returned by [computeMergeResult]. *)
Record IMergeSets (K : Type) := MergeSets {
  ms_added : list K;
  ms_removed : list K;
  ms_updated : list K;
  ms_conflicts : list K
}.
Arguments MergeSets {K} _ _ _ _.
Arguments ms_added {K} _.
Arguments ms_removed {K} _.
Arguments ms_updated {K} _.
Arguments ms_conflicts {K} _.

(** [IMergeResult], the value returned by [computeMergeResultByKeybinding]. *)
Record IMergeResult (K : Type) := MergeResult {
  hasLocalForwarded : bool;
  hasRemoteForwarded : bool;
  mr_added : list K;
  mr_removed : list K;
  mr_updated : list K;
  conflicts : list K
}.
Arguments MergeResult {K} _ _ _ _ _ _.
Arguments hasLocalForwarded {K} _.
Arguments hasRemoteForwarded {K} _.
Arguments mr_added {K} _.
Arguments mr_removed {K} _.
Arguments mr_updated {K} _.
Arguments conflicts {K} _.

(** The value returned by [merge]. *)
Record MergeOutput := Output {
  mergeContent : string;
  hasChanges : bool;
  hasConflicts : bool
}.

(** Truthiness of a value that is an object or [undefined]. *)
Definition is_Some_bool {T : Type} (o : option T) : bool :=
  match o with Some _ => true | None => false end.

(** ** Sets and maps in insertion order *)

Section containers.
Context {K : Type} `{EqDecision K}.

(** [set.has(k)] *)
Definition set_has (s : list K) (k : K) : bool := bool_decide (k ∈ s).

(** [set.add(k)] *)
Definition set_add (k : K) (s : list K) : list K :=
  if set_has s k then s else s ++ [k].

(** [set.size === 0] *)
Definition set_empty (s : list K) : bool :=
  match s with [] => true | _ => false end.

(** [keys.reduce((r, k) => { r.add(k); return r; }, new Set())] *)
Definition to_set (l : list K) : list K :=
  foldl (fun r k => set_add k r) [] l.

Context {V : Type}.

(** [keys(map)] *)
Definition map_keys (m : list (K * V)) : list K := m.*1.

(** [map.get(k)] *)
Fixpoint map_get (m : list (K * V)) (k : K) : option V :=
  match m with
  | [] => None
  | (k', v) :: m' => if decide (k' = k) then Some v else map_get m' k
  end.

End containers.

(** The body shared by the loops of [byKeybinding] and [byCommand]: fetch
    the group of [k], create it at the end of the map when it is missing,
    and push the record onto it. *)
Fixpoint group_push {K R : Type} `{EqDecision K}
    (k : K) (r : R) (m : list (K * list R)) : list (K * list R) :=
  match m with
  | [] => [(k, [r])]
  | (k', v) :: m' =>
      if decide (k' = k) then (k', v ++ [r]) :: m'
      else (k', v) :: group_push k r m'
  end.

(** [command[0] === '-'] *)
Definition is_negated (c : string) : bool :=
  match c with
  | String "-" _ => true
  | _ => false
  end.

(** [command[0] === '-' ? command.substring(1) : command] *)
Definition command_name (c : string) : string :=
  match c with
  | String "-" rest => rest
  | _ => c
  end.

(** [`-${command}`] *)
Definition negation_of (c : string) : string := String "-" c.

(** Modelled from the spec: [equals] of vs/base/common/arrays, which is not
    among the sources. Two ordered lists are equal iff they have the same
    length and are pairwise equal, in order, under [itemEquals]. *)
Fixpoint equals {T : Type} (one other : list T) (itemEquals : T -> T -> bool)
    : bool :=
  match one, other with
  | [], [] => true
  | a :: one', b :: other' => itemEquals a b && equals one' other' itemEquals
  | _, _ => false
  end.

(** Modelled from the spec: [firstIndex] of vs/base/common/arrays, which is
    not among the sources. The position of the first element that
    satisfies [fn], or -1 when there is none. *)
Fixpoint findFirstIndexFrom {T : Type} (i : nat) (array : list T)
    (fn : T -> bool) : Z :=
  match array with
  | [] => (-1)%Z
  | x :: array' =>
      if fn x then Z.of_nat i else findFirstIndexFrom (S i) array' fn
  end.

Definition findFirstIndex {T : Type} (array : list T) (fn : T -> bool) : Z :=
  findFirstIndexFrom 0 array fn.

(** ** The merge engine *)

Section model.
Context `{Collaborators}.

Abbreviation RawKeybinding := (IUserFriendlyKeybinding Args string).
Abbreviation CanonicalKey := (option string).

(** [{ ...keybinding, ...{ key } }] *)
Definition with_key {K K' : Type} (k : K')
    (keybinding : IUserFriendlyKeybinding Args K)
    : IUserFriendlyKeybinding Args K' :=
  Keybinding k (command keybinding) (when keybinding) (args keybinding).

Definition isSameKeybinding {K : Type} `{EqDecision K}
    (a b : IUserFriendlyKeybinding Args K) : bool :=
  if negb (String.eqb (command a) (command b)) then false
  else if negb (bool_decide (key a = key b)) then false
  else
    let whenA := deserialize (when a) in
    let whenB := deserialize (when b) in
    if (is_Some_bool whenA && negb (is_Some_bool whenB))
       || (negb (is_Some_bool whenA) && is_Some_bool whenB) then false
    else if match whenA, whenB with
            | Some ea, Some eb => negb (expr_equals ea eb)
            | _, _ => false
            end then false
    else if negb (objects_equals (args a) (args b)) then false
    else true.

Definition areSameKeybindingsWithSameCommand {K : Type} `{EqDecision K}
    (value1 value2 : list (IUserFriendlyKeybinding Args K)) : bool :=
  (* Compare entries adding keybindings *)
  if negb (equals
             (List.filter (fun k => negb (is_negated (command k))) value1)
             (List.filter (fun k => negb (is_negated (command k))) value2)
             isSameKeybinding) then false
  (* Compare entries removing keybindings *)
  else if negb (equals
                  (List.filter (fun k => is_negated (command k)) value1)
                  (List.filter (fun k => is_negated (command k)) value2)
                  isSameKeybinding) then false
  else true.

Definition byKeybinding (keybindings : list RawKeybinding)
    (keys : gmap string string)
    : list (CanonicalKey * list RawKeybinding) :=
  foldl (fun map keybinding =>
           group_push (keys !! key keybinding) keybinding map)
        [] keybindings.

Definition byCommand (keybindings : list RawKeybinding)
    : list (string * list RawKeybinding) :=
  foldl (fun map keybinding =>
           group_push (command_name (command keybinding)) keybinding map)
        [] keybindings.

(** [map.get(key)!]: the callers only ask for keys of the map. *)
Definition get_group {K R : Type} `{EqDecision K}
    (m : list (K * list R)) (k : K) : list R :=
  default [] (map_get m k).

Definition compareByKeybinding
    (from to : list (CanonicalKey * list RawKeybinding))
    : ICompareResult CanonicalKey :=
  let fromKeys := map_keys from in
  let toKeys := map_keys to in
  let added :=
    to_set (List.filter (fun key => negb (set_has fromKeys key)) toKeys) in
  let removed :=
    to_set (List.filter (fun key => negb (set_has toKeys key)) fromKeys) in
  let updated :=
    foldl (fun updated key =>
             if set_has removed key then updated
             else
               let value1 := map (with_key key) (get_group from key) in
               let value2 := map (with_key key) (get_group to key) in
               if negb (equals value1 value2 isSameKeybinding)
               then set_add key updated else updated)
          [] fromKeys in
  CompareResult added removed updated.

Definition compareByCommand
    (from to : list (string * list RawKeybinding))
    (normalizedKeys : gmap string string) : ICompareResult string :=
  let fromKeys := map_keys from in
  let toKeys := map_keys to in
  let added :=
    to_set (List.filter (fun key => negb (set_has fromKeys key)) toKeys) in
  let removed :=
    to_set (List.filter (fun key => negb (set_has toKeys key)) fromKeys) in
  let updated :=
    foldl (fun updated k =>
             if set_has removed k then updated
             else
               let value1 :=
                 map (fun keybinding =>
                        with_key (normalizedKeys !! key keybinding) keybinding)
                     (get_group from k) in
               let value2 :=
                 map (fun keybinding =>
                        with_key (normalizedKeys !! key keybinding) keybinding)
                     (get_group to k) in
               if negb (areSameKeybindingsWithSameCommand value1 value2)
               then set_add k updated else updated)
          [] fromKeys in
  CompareResult added removed updated.

(** [{ added: keys(map).reduce(...), removed: new Set(), updated: new Set() }],
    the comparison used when there is no base. *)
Definition allAdded {K V : Type} `{EqDecision K} (m : list (K * V))
    : ICompareResult K :=
  CompareResult (to_set (map_keys m)) [] [].

(** [added.size === 0 && removed.size === 0 && updated.size === 0] *)
Definition noChanges {K : Type} (r : ICompareResult K) : bool :=
  set_empty (added r) && set_empty (removed r) && set_empty (updated r).

(** The six loops of [computeMergeResult] thread the four sets; each loop
    is a fold over the values of one input set. The result sets are
    written [added'], [removed'], [updated'] to keep them apart from the
    fields of the compare results. *)
Definition computeMergeResult {K : Type} `{EqDecision K}
    (localToRemote baseToLocal baseToRemote : ICompareResult K)
    : IMergeSets K :=
  (* Removed keys in Local *)
  let conflicts :=
    foldl (fun conflicts k =>
             (* Got updated in remote *)
             if set_has (updated baseToRemote) k then set_add k conflicts
             else conflicts)
          [] (removed baseToLocal) in
  (* Removed keys in Remote *)
  let '(removed', conflicts) :=
    foldl (fun '(removed', conflicts) k =>
             if set_has conflicts k then (removed', conflicts)
             (* Got updated in local *)
             else if set_has (updated baseToLocal) k
                  then (removed', set_add k conflicts)
                  else (set_add k removed', conflicts))
          ([], conflicts) (removed baseToRemote) in
  (* Added keys in Local *)
  let conflicts :=
    foldl (fun conflicts k =>
             if set_has conflicts k then conflicts
             (* Got added in remote *)
             else if set_has (added baseToRemote) k
                  then (* Has different value *)
                       if set_has (updated localToRemote) k
                       then set_add k conflicts else conflicts
                  else conflicts)
          conflicts (added baseToLocal) in
  (* Added keys in remote *)
  let '(added', conflicts) :=
    foldl (fun '(added', conflicts) k =>
             if set_has conflicts k then (added', conflicts)
             (* Got added in local *)
             else if set_has (added baseToLocal) k
                  then (* Has different value *)
                       if set_has (updated localToRemote) k
                       then (added', set_add k conflicts)
                       else (added', conflicts)
                  else (set_add k added', conflicts))
          ([], conflicts) (added baseToRemote) in
  (* Updated keys in Local *)
  let conflicts :=
    foldl (fun conflicts k =>
             if set_has conflicts k then conflicts
             (* Got updated in remote *)
             else if set_has (updated baseToRemote) k
                  then (* Has different value *)
                       if set_has (updated localToRemote) k
                       then set_add k conflicts else conflicts
                  else conflicts)
          conflicts (updated baseToLocal) in
  (* Updated keys in Remote *)
  let '(updated', conflicts) :=
    foldl (fun '(updated', conflicts) k =>
             if set_has conflicts k then (updated', conflicts)
             (* Got updated in local *)
             else if set_has (updated baseToLocal) k
                  then (* Has different value *)
                       if set_has (updated localToRemote) k
                       then (updated', set_add k conflicts)
                       else (updated', conflicts)
                  else (set_add k updated', conflicts))
          ([], conflicts) (updated baseToRemote) in
  MergeSets added' removed' updated' conflicts.

Definition computeMergeResultByKeybinding
    (local remote : list RawKeybinding) (base : option (list RawKeybinding))
    (normalizedKeys : gmap string string) : IMergeResult CanonicalKey :=
  let empty : list CanonicalKey := [] in
  let localByKeybinding := byKeybinding local normalizedKeys in
  let remoteByKeybinding := byKeybinding remote normalizedKeys in
  let baseByKeybinding :=
    match base with
    | Some base => Some (byKeybinding base normalizedKeys)
    | None => None
    end in
  let localToRemoteByKeybinding :=
    compareByKeybinding localByKeybinding remoteByKeybinding in
  if noChanges localToRemoteByKeybinding
  then MergeResult false false empty empty empty empty
  else
    let baseToLocalByKeybinding :=
      match baseByKeybinding with
      | Some baseByKeybinding =>
          compareByKeybinding baseByKeybinding localByKeybinding
      | None => allAdded localByKeybinding
      end in
    if noChanges baseToLocalByKeybinding
    then (* Remote has moved forward and local has not. *)
         MergeResult false true empty empty empty empty
    else
      let baseToRemoteByKeybinding :=
        match baseByKeybinding with
        | Some baseByKeybinding =>
            compareByKeybinding baseByKeybinding remoteByKeybinding
        | None => allAdded remoteByKeybinding
        end in
      if noChanges baseToRemoteByKeybinding
      then MergeResult true false empty empty empty empty
      else
        let r := computeMergeResult localToRemoteByKeybinding
                   baseToLocalByKeybinding baseToRemoteByKeybinding in
        MergeResult true true
          (ms_added r) (ms_removed r) (ms_updated r) (ms_conflicts r).

(** [keybinding.command === command || keybinding.command === `-${command}`] *)
Definition hasCommand (command' : string) (keybinding : RawKeybinding)
    : bool :=
  String.eqb (command keybinding) command'
  || String.eqb (command keybinding) (negation_of command').

Definition addKeybindings (content eol : string)
    (keybindings : list RawKeybinding) : string :=
  foldl (fun content keybinding =>
           edit content eol [(-1)%Z] (Some keybinding))
        content keybindings.

(** [for (let index = n - 1; index >= 0; index--)]: the indices visited. *)
Definition downFrom (n : nat) : list nat := rev (seq 0 n).

(** The loop that removes all entries with a command, shared by
    [removeKeybindings] and [updateKeybindings]. [keybindings] is the parse
    of the content taken before the loop. *)
Definition removeEntries (keybindings : list RawKeybinding)
    (content eol command' : string) : string :=
  foldl (fun content index =>
           match keybindings !! index with
           | Some keybinding =>
               if hasCommand command' keybinding
               then edit content eol [Z.of_nat index] None
               else content
           | None => content
           end)
        content (downFrom (length keybindings)).

Definition removeKeybindings (content eol command' : string) : string :=
  let keybindings := parse content in
  removeEntries keybindings content eol command'.

Definition updateKeybindings (content eol command' : string)
    (keybindings : list RawKeybinding) : string :=
  let allKeybindings := parse content in
  let location := findFirstIndex allKeybindings (hasCommand command') in
  (* Remove all entries with this command *)
  let content := removeEntries allKeybindings content eol command' in
  (* add all entries at the same location where the entry with this command
     was located. *)
  foldl (fun content index =>
           match keybindings !! index with
           | Some keybinding => edit content eol [location] (Some keybinding)
           | None => content
           end)
        content (downFrom (length keybindings)).

(** The guard of the loops over added and updated commands:
    [keybindings.some(keybinding =>
       keybinding.command !== `-${command}`
       && keybindingsMergeResult.conflicts.has(
            normalizedKeys[keybinding.key]))] *)
Definition escalates (bindingConflicts : list CanonicalKey)
    (normalizedKeys : gmap string string) (command' : string)
    (keybindings : list RawKeybinding) : bool :=
  existsb (fun keybinding =>
             negb (String.eqb (command keybinding) (negation_of command'))
             && set_has bindingConflicts (normalizedKeys !! key keybinding))
          keybindings.

(** The command-level merge result of [merge] (the three groupings by
    command, the three comparisons and their resolution). *)
Definition commandsMergeResult (local remote : list RawKeybinding)
    (base : option (list RawKeybinding))
    (normalizedKeys : gmap string string) : IMergeSets string :=
  let localByCommand := byCommand local in
  let remoteByCommand := byCommand remote in
  let baseByCommand :=
    match base with Some base => Some (byCommand base) | None => None end in
  let localToRemoteByCommand :=
    compareByCommand localByCommand remoteByCommand normalizedKeys in
  let baseToLocalByCommand :=
    match baseByCommand with
    | Some baseByCommand =>
        compareByCommand baseByCommand localByCommand normalizedKeys
    | None => allAdded localByCommand
    end in
  let baseToRemoteByCommand :=
    match baseByCommand with
    | Some baseByCommand =>
        compareByCommand baseByCommand remoteByCommand normalizedKeys
    | None => allAdded remoteByCommand
    end in
  computeMergeResult localToRemoteByCommand baseToLocalByCommand
    baseToRemoteByCommand.

(** Removed commands in Remote: one round of the loop. *)
Definition removedStep (conflicts : list string) (eol : string)
    (mergeContent command' : string) : string :=
  if set_has conflicts command' then mergeContent
  else removeKeybindings mergeContent eol command'.

(** Added commands in remote: one round of the loop, on the merged text
    and the command-level conflict set. *)
Definition addedStep (bindingConflicts : list CanonicalKey)
    (normalizedKeys : gmap string string)
    (remoteByCommand : list (string * list RawKeybinding)) (eol : string)
    (st : string * list string) (command' : string)
    : string * list string :=
  let '(mergeContent, conflicts) := st in
  if set_has conflicts command' then st
  else
    let keybindings := get_group remoteByCommand command' in
    (* Ignore negated commands *)
    if escalates bindingConflicts normalizedKeys command' keybindings
    then (mergeContent, set_add command' conflicts)
    else (addKeybindings mergeContent eol keybindings, conflicts).

(** Updated commands in Remote: one round of the loop. *)
Definition updatedStep (bindingConflicts : list CanonicalKey)
    (normalizedKeys : gmap string string)
    (remoteByCommand : list (string * list RawKeybinding)) (eol : string)
    (st : string * list string) (command' : string)
    : string * list string :=
  let '(mergeContent, conflicts) := st in
  if set_has conflicts command' then st
  else
    let keybindings := get_group remoteByCommand command' in
    (* Ignore negated commands *)
    if escalates bindingConflicts normalizedKeys command' keybindings
    then (mergeContent, set_add command' conflicts)
    else (updateKeybindings mergeContent eol command' keybindings, conflicts).

(** The output assembly of [merge]: the three loops, from the local text
    and the command-level merge result to the edited text and the final
    command-level conflict set. *)
Definition assemble (bindingConflicts : list CanonicalKey)
    (normalizedKeys : gmap string string)
    (remote : list RawKeybinding) (r : IMergeSets string)
    (localContent : string) : string * list string :=
  let remoteByCommand := byCommand remote in
  let eol := getEol localContent in
  let mergeContent :=
    foldl (removedStep (ms_conflicts r) eol) localContent (ms_removed r) in
  let st :=
    foldl (addedStep bindingConflicts normalizedKeys remoteByCommand eol)
          (mergeContent, ms_conflicts r) (ms_added r) in
  foldl (updatedStep bindingConflicts normalizedKeys remoteByCommand eol)
        st (ms_updated r).

(** The two-way conflict block. *)
Definition conflictBlock (eol mergeContent remoteContent : string) : string :=
  "<<<<<<< local" +:+ eol
  +:+ mergeContent
  +:+ eol +:+ "=======" +:+ eol
  +:+ remoteContent
  +:+ eol +:+ ">>>>>>> remote".

(** [baseContent ? parse(baseContent) : null]: a [null] and an empty
    string are both falsy. *)
Definition parseBase (baseContent : option string)
    : option (list RawKeybinding) :=
  match baseContent with
  | Some EmptyString => None
  | Some baseContent => Some (parse baseContent)
  | None => None
  end.

Definition merge (localContent remoteContent : string)
    (baseContent : option string) (normalizedKeys : gmap string string)
    : MergeOutput :=
  let local := parse localContent in
  let remote := parse remoteContent in
  let base := parseBase baseContent in
  let keybindingsMergeResult :=
    computeMergeResultByKeybinding local remote base normalizedKeys in
  if negb (hasLocalForwarded keybindingsMergeResult)
     && negb (hasRemoteForwarded keybindingsMergeResult)
  then (* No changes found between local and remote. *)
       Output localContent false false
  else if negb (hasLocalForwarded keybindingsMergeResult)
          && hasRemoteForwarded keybindingsMergeResult
  then Output remoteContent true false
  else if hasLocalForwarded keybindingsMergeResult
          && negb (hasRemoteForwarded keybindingsMergeResult)
  then (* Local has moved forward and remote has not. Return local. *)
       Output localContent true false
  else
    (* Both local and remote has moved forward. *)
    let r := commandsMergeResult local remote base normalizedKeys in
    let eol := getEol localContent in
    let '(mergeContent, conflicts) :=
      assemble (conflicts keybindingsMergeResult) normalizedKeys remote r
        localContent in
    let hasConflicts := negb (set_empty conflicts) in
    let mergeContent :=
      if hasConflicts then conflictBlock eol mergeContent remoteContent
      else mergeContent in
    Output mergeContent true hasConflicts.

End model.

(** ** Vocabulary of the specification *)

Section vocabulary.
Context `{Collaborators}.

(** The guards of two records are equivalent: both absent, or both present
    and equal under the expression comparator. *)
Definition guardsEquivalent (whenA whenB : option Expr) : Prop :=
  match whenA, whenB with
  | None, None => True
  | Some ea, Some eb => expr_equals ea eb = true
  | _, _ => False
  end.

(** Order-sensitive pairwise equality of two record lists: same length and
    single-record equality position by position. *)
Definition pairwiseSame {K : Type} `{EqDecision K}
    (value1 value2 : list (IUserFriendlyKeybinding Args K)) : Prop :=
  Forall2 (fun a b => isSameKeybinding a b = true) value1 value2.

(** The entries adding keybindings and the entries removing keybindings. *)
Definition adding {K : Type} (value : list (IUserFriendlyKeybinding Args K))
    : list (IUserFriendlyKeybinding Args K) :=
  List.filter (fun k => negb (is_negated (command k))) value.

Definition removing {K : Type} (value : list (IUserFriendlyKeybinding Args K))
    : list (IUserFriendlyKeybinding Args K) :=
  List.filter (fun k => is_negated (command k)) value.

(** Two raw records that differ at most in the spelling of their key: the
    same command, guard and arguments, and keys with one canonical form. *)
Definition sameButSpelling (normalizedKeys : gmap string string)
    (a b : IUserFriendlyKeybinding Args string) : Prop :=
  command a = command b /\ when a = when b /\ args a = args b
  /\ normalizedKeys !! key a = normalizedKeys !! key b.

(** The comparison of the base with one side by canonical key, as
    [computeMergeResultByKeybinding] takes it: without a base everything
    on that side counts as added. *)
Definition baseToSideByKeybinding
    (base : option (list (IUserFriendlyKeybinding Args string)))
    (side : list (IUserFriendlyKeybinding Args string))
    (normalizedKeys : gmap string string) : ICompareResult (option string) :=
  match base with
  | Some base =>
      compareByKeybinding (byKeybinding base normalizedKeys)
        (byKeybinding side normalizedKeys)
  | None => allAdded (byKeybinding side normalizedKeys)
  end.

(** The comparison of the base with one side by command, as [merge] takes
    it. *)
Definition baseToSideByCommand
    (base : option (list (IUserFriendlyKeybinding Args string)))
    (side : list (IUserFriendlyKeybinding Args string))
    (normalizedKeys : gmap string string) : ICompareResult string :=
  match base with
  | Some base =>
      compareByCommand (byCommand base) (byCommand side) normalizedKeys
  | None => allAdded (byCommand side)
  end.

(** The contract of the positional editor with the parser: deleting at an
    index of the current parse removes that record, and writing a record
    at a position of the current parse inserts it there. *)
Definition editorContract : Prop :=
  (forall content eol (i : nat),
      i < length (parse content) ->
      parse (edit content eol [Z.of_nat i] None) = delete i (parse content))
  /\ (forall content eol (i : nat) keybinding,
      i <= length (parse content) ->
      parse (edit content eol [Z.of_nat i] (Some keybinding))
      = take i (parse content) ++ keybinding :: drop i (parse content)).

(** The contract of the positional editor for the index -1: the record is
    appended to the current parse. *)
Definition appendContract : Prop :=
  forall content eol keybinding,
    parse (edit content eol [(-1)%Z] (Some keybinding))
    = parse content ++ [keybinding].

(** No command of the document is doubly negated: the name under which a
    record is grouped does not itself start with a dash. *)
Definition plainNames
    (keybindings : list (IUserFriendlyKeybinding Args string)) : Prop :=
  Forall (fun keybinding =>
            is_negated (command_name (command keybinding)) = false)
    keybindings.

(** The records of one command, negated or not, in document order. *)
Definition recordsOf (c : string)
    (keybindings : list (IUserFriendlyKeybinding Args string))
    : list (IUserFriendlyKeybinding Args string) :=
  List.filter (fun keybinding =>
                 String.eqb (command_name (command keybinding)) c)
    keybindings.

(** The records whose key has the canonical form [k], in document
    order. *)
Definition recordsAt (normalizedKeys : gmap string string) (k : option string)
    (keybindings : list (IUserFriendlyKeybinding Args string))
    : list (IUserFriendlyKeybinding Args string) :=
  List.filter (fun keybinding =>
                 bool_decide (normalizedKeys !! key keybinding = k))
    keybindings.

End vocabulary.

(** ** A concrete instance of the collaborators *)

(** Modelled from the spec: the parser, the positional editor, the
    expression comparator and the deep equality of [args] are external to
    the engine. This instance follows their contracts on a small document
    format: [parse] reads back what [serialize] writes, [edit] with
    [undefined] deletes the record at the index, with the index -1 it
    appends, and with another index it inserts at that position. Guards
    are compared as strings and an empty guard deserializes to nothing. *)
Module Sample.

Abbreviation record := (IUserFriendlyKeybinding unit string).

Fixpoint enc_string (s : string) : string :=
  match s with
  | EmptyString => "."
  | String c s' => String "c" (String c (enc_string s'))
  end.

Fixpoint dec_string (s : string) : option (string * string) :=
  match s with
  | String "." rest => Some (EmptyString, rest)
  | String "c" (String c s') =>
      match dec_string s' with
      | Some (t, rest) => Some (String c t, rest)
      | None => None
      end
  | _ => None
  end.

Definition enc_when (w : option string) : string :=
  match w with
  | None => "n"
  | Some w => String "s" (enc_string w)
  end.

Definition dec_when (s : string) : option (option string * string) :=
  match s with
  | String "n" rest => Some (None, rest)
  | String "s" s' =>
      match dec_string s' with
      | Some (w, rest) => Some (Some w, rest)
      | None => None
      end
  | _ => None
  end.

Definition enc_record (r : record) : string :=
  enc_string (key r) +:+ enc_string (command r) +:+ enc_when (when r).

Definition dec_record (s : string) : option (record * string) :=
  match dec_string s with
  | Some (k, s1) =>
      match dec_string s1 with
      | Some (c, s2) =>
          match dec_when s2 with
          | Some (w, rest) => Some (Keybinding k c w tt, rest)
          | None => None
          end
      | None => None
      end
  | None => None
  end.

Fixpoint serialize (l : list record) : string :=
  match l with
  | [] => EmptyString
  | r :: l' => String "r" (enc_record r +:+ serialize l')
  end.

Fixpoint parse_fuel (fuel : nat) (s : string) : list record :=
  match fuel with
  | O => []
  | S fuel' =>
      match s with
      | String "r" s' =>
          match dec_record s' with
          | Some (r, rest) => r :: parse_fuel fuel' rest
          | None => []
          end
      | _ => []
      end
  end.

Definition parse_text (s : string) : list record :=
  parse_fuel (String.length s) s.

Definition edit_list (l : list record) (path : list Z) (v : option record)
    : list record :=
  match path, v with
  | [i], None => if (0 <=? i)%Z then delete (Z.to_nat i) l else l
  | [i], Some r =>
      if (i =? -1)%Z then l ++ [r]
      else if (0 <=? i)%Z
           then take (Z.to_nat i) l ++ r :: drop (Z.to_nat i) l
           else l
  | _, _ => l
  end.

Definition edit_text (content eol : string) (path : list Z)
    (v : option record) : string :=
  serialize (edit_list (parse_text content) path v).

Definition deserialize_guard (w : option string) : option string :=
  match w with
  | Some (String c s) => Some (String c s)
  | _ => None
  end.

Definition newline : string := String "010" EmptyString.

Definition collaborators : Collaborators := {|
  Args := unit;
  Expr := string;
  objects_equals := fun _ _ => true;
  deserialize := deserialize_guard;
  expr_equals := String.eqb;
  parse := parse_text;
  edit := edit_text;
  getEol := fun _ => newline
|}.

(** A table for the keys used below: [K1] is another spelling of [k1]. *)
Definition table : gmap string string :=
  <["k1" := "k1"]> (<["K1" := "k1"]> (<["k2" := "k2"]> (<["k3" := "k3"]> ∅))).

Definition rec (k c : string) : record := Keybinding k c None tt.

Definition guarded (k c w : string) : record := Keybinding k c (Some w) tt.

(** The engine on the sample collaborators. *)
Definition sample_merge (localContent remoteContent : string)
    (baseContent : option string) : MergeOutput :=
  merge (H := collaborators) localContent remoteContent baseContent table.

(** One document on all three sides. *)
Definition agreed : list record := [rec "k1" "A"; rec "k2" "B"].

(** The remote adds a command to a local that equals the base. *)
Definition forward_base : list record := [rec "k1" "A"].
Definition forward_remote : list record := [rec "k1" "A"; rec "k2" "B"].

(** The local removes command [D], the remote edits its guard. *)
Definition race_base : list record := [rec "k1" "D"; rec "k2" "B"].
Definition race_local : list record := [rec "k2" "B"].
Definition race_remote : list record :=
  [guarded "k1" "D" "editorFocus"; rec "k2" "B"].

(** Both sides rebind the key [k1] of the base, to different commands. *)
Definition rebind_base : list record := [rec "k1" "A"].
Definition rebind_local : list record := [rec "k1" "B"].
Definition rebind_remote : list record := [rec "k1" "C"].

(** A document with two records of command [A] around one of [B], and
    the records of the remote for [A]. *)
Definition update_local : list record :=
  [rec "k3" "B"; rec "k1" "A"; rec "k2" "B"; rec "k3" "A"].
Definition update_remote : list record :=
  [guarded "k1" "A" "editorFocus"; rec "k2" "B"; rec "k2" "-A"].

(** Two groups that differ in the spelling of the key only. *)
Definition spelled_from : list record := [rec "k1" "A"].
Definition spelled_to : list record := [rec "K1" "A"].

(** Two lists with the same positive and the same negative entries,
    interleaved differently. *)
Definition interleaved1 : list (IUserFriendlyKeybinding unit (option string)) :=
  [Keybinding (Some "k1") "A" None tt; Keybinding (Some "k2") "-A" None tt].
Definition interleaved2 : list (IUserFriendlyKeybinding unit (option string)) :=
  [Keybinding (Some "k2") "-A" None tt; Keybinding (Some "k1") "A" None tt].

(** Local and remote add different commands to the base. *)
Definition diverge_base : list record := [rec "k1" "A"].
Definition diverge_local : list record := [rec "k1" "A"; rec "k2" "B"].
Definition diverge_remote : list record := [rec "k1" "A"; rec "k3" "C"].

(** The same bindings, in another order and with another spelling of a
    key. *)
Definition respelled_local : list record := [rec "k1" "A"; rec "k2" "B"].
Definition respelled_remote : list record := [rec "k2" "B"; rec "K1" "A"].

(** A base with a negated and a doubly negated command; the local adds a
    command, the remote guards the first record and rewrites the second. *)
Definition dashed_base : list record := [rec "k1" "-x"; rec "k2" "--x"].
Definition dashed_local : list record :=
  [rec "k1" "-x"; rec "k2" "--x"; rec "k3" "y"].
Definition dashed_remote : list record :=
  [guarded "k1" "-x" "f"; rec "k2" "-x"].

End Sample.

(** ** Sets and maps: membership *)

Section container_facts.
Context {K : Type} `{EqDecision K}.

Lemma set_has_true (s : list K) (k : K) : set_has s k = true <-> k ∈ s.
Proof. unfold set_has. apply bool_decide_eq_true. Qed.

Lemma set_has_false (s : list K) (k : K) : set_has s k = false <-> k ∉ s.
Proof. unfold set_has. apply bool_decide_eq_false. Qed.

Lemma elem_of_set_add (x k : K) (s : list K) :
  x ∈ set_add k s <-> x = k \/ x ∈ s.
Proof.
  unfold set_add. destruct (set_has s k) eqn:E.
  - apply set_has_true in E. split; [auto | intros [-> | ?]; auto].
  - rewrite elem_of_app, list_elem_of_singleton. tauto.
Qed.

Lemma set_add_mono (x k : K) (s : list K) : x ∈ s -> x ∈ set_add k s.
Proof. intros. apply elem_of_set_add. auto. Qed.

Lemma set_empty_true (s : list K) : set_empty s = true <-> s = [].
Proof. destruct s; simpl; split; congruence. Qed.

Lemma set_empty_elem (s : list K) (k : K) : k ∈ s -> set_empty s = false.
Proof. destruct s; simpl; [intros E; inversion E | reflexivity]. Qed.

Lemma elem_of_foldl_set_add (l acc : list K) (x : K) :
  x ∈ foldl (fun r k => set_add k r) acc l <-> x ∈ acc \/ x ∈ l.
Proof.
  revert acc. induction l as [|k l IH]; intros acc; simpl.
  - rewrite elem_of_nil. tauto.
  - rewrite IH, elem_of_set_add, elem_of_cons. tauto.
Qed.

Lemma elem_of_to_set (l : list K) (x : K) : x ∈ to_set l <-> x ∈ l.
Proof.
  unfold to_set. rewrite elem_of_foldl_set_add, elem_of_nil. tauto.
Qed.

Lemma elem_of_filter_bool (f : K -> bool) (l : list K) (x : K) :
  x ∈ List.filter f l <-> x ∈ l /\ f x = true.
Proof. rewrite !list_elem_of_In. apply filter_In. Qed.

(** The keys of one map that are missing from another, as a set. *)
Lemma elem_of_missing (l1 l2 : list K) (x : K) :
  x ∈ to_set (List.filter (fun k => negb (set_has l2 k)) l1)
  <-> x ∈ l1 /\ x ∉ l2.
Proof.
  rewrite elem_of_to_set, elem_of_filter_bool, negb_true_iff, set_has_false.
  tauto.
Qed.

Lemma missing_self (l : list K) :
  to_set (List.filter (fun k => negb (set_has l k)) l) = [].
Proof.
  destruct (to_set _) as [|x s] eqn:E; [reflexivity|].
  assert (Hx : x ∈ to_set (List.filter (fun k => negb (set_has l k)) l))
    by (rewrite E; left).
  apply elem_of_missing in Hx. tauto.
Qed.

(** The loop that fills [updated] in the compare functions. *)
Lemma elem_of_update_loop (skip test : K -> bool) (l acc : list K) (x : K) :
  x ∈ foldl (fun upd k =>
               if skip k then upd
               else if test k then set_add k upd else upd) acc l
  <-> x ∈ acc \/ (x ∈ l /\ skip x = false /\ test x = true).
Proof.
  revert acc. induction l as [|k l IH]; intros acc; simpl.
  - rewrite elem_of_nil. tauto.
  - rewrite IH, elem_of_cons.
    destruct (skip k) eqn:Es; [|destruct (test k) eqn:Et];
      rewrite ?elem_of_set_add; intuition (subst; auto; congruence).
Qed.

Context {V : Type}.

Lemma map_get_is_Some (m : list (K * V)) (k : K) :
  is_Some (map_get m k) <-> k ∈ map_keys m.
Proof.
  unfold map_keys. induction m as [|[k' v] m IH]; simpl.
  - rewrite elem_of_nil. split; [intros [? ?]; discriminate | tauto].
  - rewrite elem_of_cons. destruct (decide (k' = k)) as [->|Hne].
    + split; eauto.
    + rewrite IH. split; [auto | intros [?|?]; [congruence | done]].
Qed.

(** The two [map.get(key)!] of the compare loops are defined: the loops
    run over the keys of [from] and skip the keys missing from [to]. *)
Lemma compared_groups_defined (from to : list (K * V)) (k : K) :
  k ∈ map_keys from ->
  set_has (to_set (List.filter (fun key => negb (set_has (map_keys to) key))
                     (map_keys from))) k = false ->
  is_Some (map_get from k) /\ is_Some (map_get to k).
Proof.
  intros Hk Hr. apply set_has_false in Hr. rewrite elem_of_missing in Hr.
  rewrite !map_get_is_Some. split; [done|].
  destruct (decide (k ∈ map_keys to)); tauto.
Qed.

End container_facts.

(** ** List equality *)

Lemma equals_Forall2 {T : Type} (f : T -> T -> bool) (one other : list T) :
  equals one other f = true <-> Forall2 (fun a b => f a b = true) one other.
Proof.
  revert other. induction one as [|a one IH]; intros [|b other]; simpl.
  - split; [constructor | reflexivity].
  - split; [discriminate | intros E; inversion E].
  - split; [discriminate | intros E; inversion E].
  - rewrite andb_true_iff, IH. split.
    + intros [? ?]. by constructor.
    + intros E. inversion E; subst. auto.
Qed.

Lemma equals_refl {T : Type} (f : T -> T -> bool) (l : list T) :
  (forall a, f a a = true) -> equals l l f = true.
Proof.
  intros Hf. induction l as [|a l IH]; simpl; [reflexivity|].
  by rewrite Hf, IH.
Qed.

(** ** Equality predicates *)

Section equality.
Context `{Collaborators}.
Context {K : Type} `{EqDecision K}.

Implicit Types a b : IUserFriendlyKeybinding Args K.

(** C8. [isSameKeybinding a b] holds exactly when the command strings are
    equal, the key strings are equal, the arguments are equal under the
    deep equality and the deserialized guards are equivalent: both absent,
    or both present and equal under the expression comparator. A guard
    present on one record and absent on the other makes the records
    unequal. *)
Theorem isSameKeybinding_iff a b :
  (isSameKeybinding a b = true
   <-> command a = command b
       /\ key a = key b
       /\ objects_equals (args a) (args b) = true
       /\ guardsEquivalent (deserialize (when a)) (deserialize (when b)))
  /\ (is_Some_bool (deserialize (when a))
      <> is_Some_bool (deserialize (when b))
      -> isSameKeybinding a b = false).
Proof.
  unfold isSameKeybinding, guardsEquivalent.
  destruct (String.eqb_spec (command a) (command b)) as [Hc|Hc]; simpl;
    [|split; [split; [discriminate | tauto] | reflexivity]].
  destruct (bool_decide_reflect (key a = key b)) as [Hk|Hk]; simpl;
    [|split; [split; [discriminate | tauto] | reflexivity]].
  destruct (deserialize (when a)) as [ea|], (deserialize (when b)) as [eb|];
    simpl.
  - destruct (expr_equals ea eb); simpl;
      [|split; [split; [discriminate | intros (_&_&_&?); discriminate] | done]].
    destruct (objects_equals (args a) (args b)); simpl.
    + split; [tauto | done].
    + split; [split; [discriminate | intros (_&_&?&_); discriminate] | done].
  - split; [split; [discriminate | tauto] | reflexivity].
  - split; [split; [discriminate | tauto] | reflexivity].
  - destruct (objects_equals (args a) (args b)); simpl.
    + split; [tauto | done].
    + split; [split; [discriminate | intros (_&_&?&_); discriminate] | done].
Qed.

Lemma isSameKeybinding_command a b :
  isSameKeybinding a b = true -> command a = command b.
Proof.
  unfold isSameKeybinding.
  destruct (String.eqb_spec (command a) (command b)); [done | discriminate].
Qed.

Lemma isSameKeybinding_true a b :
  command a = command b -> key a = key b ->
  objects_equals (args a) (args b) = true ->
  guardsEquivalent (deserialize (when a)) (deserialize (when b)) ->
  isSameKeybinding a b = true.
Proof.
  intros Hc Hk Ha Hg. unfold isSameKeybinding, guardsEquivalent in *.
  rewrite Hc, String.eqb_refl, Hk, bool_decide_eq_true_2 by done. simpl.
  destruct (deserialize (when a)), (deserialize (when b)); simpl;
    try contradiction; rewrite ?Hg, Ha; reflexivity.
Qed.

(** C9. Command-aware list equality holds exactly when the entries adding
    keybindings are pairwise equal in order and, independently, the
    entries removing keybindings are pairwise equal in order; lists with
    the same two subsequences give the same answer, however the positive
    and negative entries are interleaved. *)
Theorem areSameKeybindingsWithSameCommand_iff
    (value1 value2 : list (IUserFriendlyKeybinding Args K)) :
  (areSameKeybindingsWithSameCommand value1 value2 = true
   <-> pairwiseSame (adding value1) (adding value2)
       /\ pairwiseSame (removing value1) (removing value2))
  /\ (forall value1' value2' : list (IUserFriendlyKeybinding Args K),
        adding value1' = adding value1 ->
        removing value1' = removing value1 ->
        adding value2' = adding value2 ->
        removing value2' = removing value2 ->
        areSameKeybindingsWithSameCommand value1' value2'
        = areSameKeybindingsWithSameCommand value1 value2).
Proof.
  split.
  - unfold areSameKeybindingsWithSameCommand, pairwiseSame, adding, removing.
    rewrite <- !equals_Forall2.
    destruct (equals _ _ _); simpl; [|split; [discriminate | tauto]].
    destruct (equals _ _ _); simpl; [tauto | split; [discriminate | tauto]].
  - intros value1' value2' Ha1 Hr1 Ha2 Hr2.
    unfold areSameKeybindingsWithSameCommand, adding, removing in *.
    by rewrite Ha1, Hr1, Ha2, Hr2.
Qed.

End equality.

(** ** Compare *)

Lemma update_loop_nil {K : Type} `{EqDecision K} (skip test : K -> bool)
    (l : list K) :
  (forall k, test k = false) ->
  foldl (fun upd k =>
           if skip k then upd
           else if test k then set_add k upd else upd) [] l = [].
Proof.
  intros Ht. induction l as [|k l IH]; simpl; [reflexivity|].
  rewrite Ht. by destruct (skip k).
Qed.

Lemma Forall2_filter_bool {A B : Type} (R : A -> B -> Prop)
    (p : A -> bool) (q : B -> bool) (l1 : list A) (l2 : list B) :
  (forall a b, R a b -> p a = q b) ->
  Forall2 R l1 l2 -> Forall2 R (List.filter p l1) (List.filter q l2).
Proof.
  intros Hpq HF. induction HF as [|a b l1 l2 HR _ IH]; simpl; [constructor|].
  rewrite (Hpq a b HR). destruct (q b); [by constructor | done].
Qed.

Section compare_facts.
Context `{Collaborators}.

Implicit Types normalizedKeys : gmap string string.

Lemma updated_compareByKeybinding
    (from to :
       list (option string * list (IUserFriendlyKeybinding Args string)))
    (k : option string) :
  k ∈ updated (compareByKeybinding from to)
  <-> k ∈ map_keys from /\ k ∈ map_keys to
      /\ equals (map (with_key k) (get_group from k))
                (map (with_key k) (get_group to k)) isSameKeybinding = false.
Proof.
  unfold compareByKeybinding. cbv zeta. simpl updated.
  etransitivity;
    [exact (elem_of_update_loop
              (fun key =>
                 set_has (to_set (List.filter
                            (fun key => negb (set_has (map_keys to) key))
                            (map_keys from))) key)
              (fun key =>
                 negb (equals (map (with_key key) (get_group from key))
                              (map (with_key key) (get_group to key))
                              isSameKeybinding))
              (map_keys from) [] k)|].
  rewrite elem_of_nil, set_has_false, elem_of_missing, negb_true_iff.
  destruct (decide (k ∈ map_keys to)); tauto.
Qed.

Lemma updated_compareByCommand
    (from to : list (string * list (IUserFriendlyKeybinding Args string)))
    normalizedKeys (c : string) :
  c ∈ updated (compareByCommand from to normalizedKeys)
  <-> c ∈ map_keys from /\ c ∈ map_keys to
      /\ areSameKeybindingsWithSameCommand
           (map (fun keybinding =>
                   with_key (normalizedKeys !! key keybinding) keybinding)
                (get_group from c))
           (map (fun keybinding =>
                   with_key (normalizedKeys !! key keybinding) keybinding)
                (get_group to c)) = false.
Proof.
  unfold compareByCommand. cbv zeta. simpl updated.
  etransitivity;
    [exact (elem_of_update_loop
              (fun k =>
                 set_has (to_set (List.filter
                            (fun key => negb (set_has (map_keys to) key))
                            (map_keys from))) k)
              (fun k =>
                 negb (areSameKeybindingsWithSameCommand
                         (map (fun keybinding =>
                                 with_key (normalizedKeys !! key keybinding)
                                   keybinding) (get_group from k))
                         (map (fun keybinding =>
                                 with_key (normalizedKeys !! key keybinding)
                                   keybinding) (get_group to k))))
              (map_keys from) [] c)|].
  rewrite elem_of_nil, set_has_false, elem_of_missing, negb_true_iff.
  destruct (decide (c ∈ map_keys to)); tauto.
Qed.

Lemma added_compare_keys {K : Type} `{EqDecision K} {V : Type}
    (from to : list (K * V)) (k : K) :
  k ∈ to_set (List.filter (fun key => negb (set_has (map_keys from) key))
                (map_keys to))
  <-> k ∈ map_keys to /\ k ∉ map_keys from.
Proof. apply elem_of_missing. Qed.

(** The comparators of guards and of arguments are reflexive. *)
Hypothesis expr_equals_refl : forall e : Expr, expr_equals e e = true.
Hypothesis objects_equals_refl : forall a : Args, objects_equals a a = true.

Lemma guardsEquivalent_refl (w : option Expr) : guardsEquivalent w w.
Proof. destruct w; simpl; auto. Qed.

Lemma isSameKeybinding_refl {K : Type} `{EqDecision K}
    (a : IUserFriendlyKeybinding Args K) : isSameKeybinding a a = true.
Proof.
  apply isSameKeybinding_true; auto using guardsEquivalent_refl.
Qed.

Lemma sameButSpelling_rewritten normalizedKeys
    (a b : IUserFriendlyKeybinding Args string) :
  sameButSpelling normalizedKeys a b ->
  (forall k : option string,
      isSameKeybinding (with_key k a) (with_key k b) = true)
  /\ isSameKeybinding (with_key (normalizedKeys !! key a) a)
                      (with_key (normalizedKeys !! key b) b) = true.
Proof.
  intros (Hc & Hw & Ha & Hk).
  split; [intros k|]; apply isSameKeybinding_true; simpl;
    rewrite ?Hw, ?Ha; auto using guardsEquivalent_refl.
Qed.

Lemma sameButSpelling_equals normalizedKeys (k : option string)
    (value1 value2 : list (IUserFriendlyKeybinding Args string)) :
  Forall2 (sameButSpelling normalizedKeys) value1 value2 ->
  equals (map (with_key k) value1) (map (with_key k) value2)
    isSameKeybinding = true.
Proof.
  intros HF. apply equals_Forall2.
  induction HF as [|a b l1 l2 HR _ IH]; simpl; constructor; [|done].
  by apply (sameButSpelling_rewritten normalizedKeys).
Qed.

Lemma sameButSpelling_areSame normalizedKeys
    (value1 value2 : list (IUserFriendlyKeybinding Args string)) :
  Forall2 (sameButSpelling normalizedKeys) value1 value2 ->
  areSameKeybindingsWithSameCommand
    (map (fun keybinding =>
            with_key (normalizedKeys !! key keybinding) keybinding) value1)
    (map (fun keybinding =>
            with_key (normalizedKeys !! key keybinding) keybinding) value2)
  = true.
Proof.
  intros HF.
  assert (HF' : Forall2 (fun a b : IUserFriendlyKeybinding Args (option string)
                           => isSameKeybinding a b = true)
            (map (fun keybinding =>
                    with_key (normalizedKeys !! key keybinding) keybinding)
                 value1)
            (map (fun keybinding =>
                    with_key (normalizedKeys !! key keybinding) keybinding)
                 value2)).
  { induction HF as [|a b l1 l2 HR _ IH]; simpl; constructor; [|done].
    by apply sameButSpelling_rewritten. }
  assert (Hcmd : forall a b : IUserFriendlyKeybinding Args (option string),
             isSameKeybinding a b = true -> command a = command b).
  { intros a b E. by apply isSameKeybinding_command in E. }
  unfold areSameKeybindingsWithSameCommand.
  rewrite !(proj2 (equals_Forall2 _ _ _)); [reflexivity| |].
  - apply Forall2_filter_bool; [|done].
    intros a b E. by rewrite (Hcmd a b E).
  - apply Forall2_filter_bool; [|done].
    intros a b E. by rewrite (Hcmd a b E).
Qed.

(** C7. A grouping key is placed in [updated] exactly when it is a key of
    both groupings and the two record lists, each record's key rewritten
    to its canonical form, are not equal under the equality predicate of
    the level (pairwise equality by canonical key, command-aware equality
    by command). Two groups whose records differ only in the raw spelling
    of their keys are never marked updated. *)
Theorem compare_updated_iff
    (from to :
       list (option string * list (IUserFriendlyKeybinding Args string)))
    (fromC toC : list (string * list (IUserFriendlyKeybinding Args string)))
    normalizedKeys :
  (forall k,
      k ∈ updated (compareByKeybinding from to)
      <-> k ∈ map_keys from /\ k ∈ map_keys to
          /\ ~ pairwiseSame (map (with_key k) (get_group from k))
                            (map (with_key k) (get_group to k)))
  /\ (forall c,
      c ∈ updated (compareByCommand fromC toC normalizedKeys)
      <-> c ∈ map_keys fromC /\ c ∈ map_keys toC
          /\ areSameKeybindingsWithSameCommand
               (map (fun keybinding =>
                       with_key (normalizedKeys !! key keybinding) keybinding)
                    (get_group fromC c))
               (map (fun keybinding =>
                       with_key (normalizedKeys !! key keybinding) keybinding)
                    (get_group toC c)) = false)
  /\ (forall k,
      Forall2 (sameButSpelling normalizedKeys)
        (get_group from k) (get_group to k) ->
      k ∉ updated (compareByKeybinding from to))
  /\ (forall c,
      Forall2 (sameButSpelling normalizedKeys)
        (get_group fromC c) (get_group toC c) ->
      c ∉ updated (compareByCommand fromC toC normalizedKeys)).
Proof.
  split; [|split; [|split]].
  - intros k. rewrite updated_compareByKeybinding. unfold pairwiseSame.
    rewrite <- equals_Forall2. destruct (equals _ _ _); intuition congruence.
  - intros c. apply updated_compareByCommand.
  - intros k HF Hk. apply updated_compareByKeybinding in Hk as (_ & _ & E).
    rewrite (sameButSpelling_equals normalizedKeys) in E; done.
  - intros c HF Hc. apply updated_compareByCommand in Hc as (_ & _ & E).
    rewrite sameButSpelling_areSame in E; done.
Qed.

Lemma compareByKeybinding_self
    (m : list (option string * list (IUserFriendlyKeybinding Args string))) :
  compareByKeybinding m m = CompareResult [] [] [].
Proof.
  unfold compareByKeybinding. cbv zeta. rewrite missing_self. f_equal.
  apply (update_loop_nil (fun key => set_has [] key)
           (fun key => negb (equals (map (with_key key) (get_group m key))
                               (map (with_key key) (get_group m key))
                               isSameKeybinding))).
  intros k. rewrite equals_refl; [reflexivity|].
  intros a. apply isSameKeybinding_refl.
Qed.

(** C1. Merging a text with itself, whatever the base and the table,
    returns that text unchanged with [hasChanges = false] and
    [hasConflicts = false]; in particular [merge X X X N]. *)
Theorem merge_same (X : string) (baseContent : option string)
    normalizedKeys :
  merge X X baseContent normalizedKeys = Output X false false
  /\ merge X X (Some X) normalizedKeys = Output X false false.
Proof.
  assert (E : forall b, merge X X b normalizedKeys = Output X false false).
  { intros b. unfold merge, computeMergeResultByKeybinding. cbv zeta.
    rewrite compareByKeybinding_self. reflexivity. }
  split; apply E.
Qed.

End compare_facts.

(** ** Merge resolution *)

Lemma foldl_invariant {S A : Type} (Inv : S -> Prop) (f : S -> A -> S)
    (l : list A) (s : S) :
  Inv s -> (forall s a, Inv s -> Inv (f s a)) -> Inv (foldl f s l).
Proof.
  intros Hs Hstep. revert s Hs.
  induction l as [|a l IH]; intros s Hs; simpl; auto.
Qed.

Lemma foldl_invariant_elem {S A : Type} (Inv : S -> Prop) (f : S -> A -> S)
    (l : list A) (s : S) :
  Inv s -> (forall s a, a ∈ l -> Inv s -> Inv (f s a)) -> Inv (foldl f s l).
Proof.
  revert s. induction l as [|a l IH]; intros s Hs Hstep; simpl; [done|].
  apply IH.
  - apply Hstep; [left | done].
  - intros s' a' Ha'. apply Hstep. by right.
Qed.

Lemma foldl_reaches {S A : Type} (P : S -> Prop) (f : S -> A -> S)
    (l : list A) (s : S) (k : A) :
  k ∈ l -> (forall s, P (f s k)) -> (forall s a, P s -> P (f s a)) ->
  P (foldl f s l).
Proof.
  intros Hk Hhit Hkeep. revert s.
  induction l as [|a l IH]; intros s; simpl; [inversion Hk|].
  apply elem_of_cons in Hk as [->|Hk]; [|by apply IH].
  apply foldl_invariant; auto.
Qed.

(** Case analysis on the tests of one round of a loop. *)
Ltac loop_round :=
  repeat match goal with
    | |- context [set_has ?s ?k] =>
        let E := fresh "E" in
        destruct (set_has s k) eqn:E;
        [apply set_has_true in E | apply set_has_false in E]
    end;
  simpl in *.

Section resolution.
Context {K : Type} `{EqDecision K}.
Variables localToRemote baseToLocal baseToRemote : ICompareResult K.

(** What the six loops of [computeMergeResult] establish about a key that
    one side removed and the other side updated. *)
Lemma computeMergeResult_removed_updated (k : K) :
  (k ∈ removed baseToLocal /\ k ∈ updated baseToRemote)
  \/ (k ∈ removed baseToRemote /\ k ∈ updated baseToLocal) ->
  let r := computeMergeResult localToRemote baseToLocal baseToRemote in
  k ∈ ms_conflicts r /\ (k ∉ ms_added r) /\ (k ∉ ms_removed r)
  /\ (k ∉ ms_updated r).
Proof.
  intros Hk. unfold computeMergeResult.
  (* Removed keys in Local *)
  match goal with |- context [foldl ?f [] (removed baseToLocal)] =>
    set (c1 := foldl f [] (removed baseToLocal)) end.
  assert (H1 : k ∈ removed baseToLocal -> k ∈ updated baseToRemote ->
               k ∈ c1).
  { intros Hr Hu. subst c1.
    apply (foldl_reaches (fun c => k ∈ c)) with (k := k); [done| |].
    - intros c. loop_round; [apply elem_of_set_add; auto | done].
    - intros c a Hc. loop_round; [by apply set_add_mono | done]. }
  (* Removed keys in Remote *)
  destruct (foldl _ ([], c1) (removed baseToRemote)) as [removed' c2] eqn:E2.
  assert (H2 : (forall x, x ∈ c1 -> x ∈ c2)
               /\ (forall x, x ∈ removed' ->
                     (x ∉ c1) /\ (x ∉ updated baseToLocal))).
  { match type of E2 with foldl ?f ?s ?l = _ =>
      pose proof (foldl_invariant
        (fun st => (forall x, x ∈ c1 -> x ∈ st.2)
                   /\ (forall x, x ∈ st.1 ->
                         (x ∉ c1) /\ (x ∉ updated baseToLocal))) f l s)
        as Hinv
    end.
    rewrite E2 in Hinv. apply Hinv; clear Hinv E2.
    - simpl. split; [done | intros x Hx; inversion Hx].
    - intros [r c] a [Hc Hr]. loop_round; split; try done.
      + intros x Hx. apply set_add_mono. auto.
      + intros x Hx. apply elem_of_set_add in Hx as [->|Hx]; auto. }
  assert (H2' : k ∈ removed baseToRemote -> k ∈ updated baseToLocal ->
                k ∈ c2).
  { intros Hr Hu.
    match type of E2 with foldl ?f ?s ?l = _ =>
      pose proof (foldl_reaches (fun st => k ∈ st.2) f l s k Hr) as Hin
    end.
    rewrite E2 in Hin. apply Hin; clear Hin E2.
    - intros [r c]. loop_round; [done | apply elem_of_set_add; auto | done].
    - intros [r c] a Hc. loop_round; try done. by apply set_add_mono. }
  assert (Hk2 : k ∈ c2) by (destruct H2, Hk as [[? ?]|[? ?]]; auto).
  assert (Hkr : k ∉ removed').
  { destruct H2 as [_ H2]. intros Hin. apply H2 in Hin as [? ?].
    destruct Hk as [[? ?]|[? ?]]; auto. }
  clear H1 H2 H2' E2 Hk.
  (* Added keys in Local *)
  match goal with |- context [foldl ?f c2 (added baseToLocal)] =>
    set (c3 := foldl f c2 (added baseToLocal)) end.
  assert (H3 : k ∈ c3).
  { subst c3. apply (foldl_invariant (fun c => k ∈ c)); [done|].
    intros c a Hc. loop_round; try done. by apply set_add_mono. }
  (* Added keys in remote *)
  destruct (foldl _ ([], c3) (added baseToRemote)) as [added' c4] eqn:E4.
  assert (H4 : (k ∈ c4) /\ (k ∉ added')).
  { match type of E4 with foldl ?f ?s ?l = _ =>
      pose proof (foldl_invariant
        (fun st => (k ∈ st.2) /\ (k ∉ st.1)) f l s) as Hinv
    end.
    rewrite E4 in Hinv. apply Hinv; clear Hinv E4.
    - simpl. split; [done | intros Hx; inversion Hx].
    - intros [r c] a [Hc Hr]. loop_round; split; try done.
      + by apply set_add_mono.
      + intros Hx. apply elem_of_set_add in Hx as [->|Hx]; auto. }
  destruct H4 as [H4 Hka]. clear E4 H3.
  (* Updated keys in Local *)
  match goal with |- context [foldl ?f c4 (updated baseToLocal)] =>
    set (c5 := foldl f c4 (updated baseToLocal)) end.
  assert (H5 : k ∈ c5).
  { subst c5. apply (foldl_invariant (fun c => k ∈ c)); [done|].
    intros c a Hc. loop_round; try done. by apply set_add_mono. }
  (* Updated keys in Remote *)
  destruct (foldl _ ([], c5) (updated baseToRemote)) as [updated' c6] eqn:E6.
  assert (H6 : (k ∈ c6) /\ (k ∉ updated')).
  { match type of E6 with foldl ?f ?s ?l = _ =>
      pose proof (foldl_invariant
        (fun st => (k ∈ st.2) /\ (k ∉ st.1)) f l s) as Hinv
    end.
    rewrite E6 in Hinv. apply Hinv; clear Hinv E6.
    - simpl. split; [done | intros Hx; inversion Hx].
    - intros [r c] a [Hc Hr]. loop_round; split; try done.
      + by apply set_add_mono.
      + intros Hx. apply elem_of_set_add in Hx as [->|Hx]; auto. }
  simpl. tauto.
Qed.

(** A loop that fills a result set only takes keys of the set it runs
    over. *)
Ltac result_within E :=
  match type of E with
  | foldl ?f ?s ?l = _ =>
      let Hinv := fresh "Hinv" in
      pose proof (foldl_invariant_elem
                    (fun st => forall x, x ∈ st.1 -> x ∈ l) f l s) as Hinv;
      rewrite E in Hinv; apply Hinv; clear Hinv E;
      [ simpl; intros ? Hnil; inversion Hnil
      | intros [? ?] ? ? ?; loop_round; try done;
        intros ? Hadd; apply elem_of_set_add in Hadd as [->|Hadd]; auto ]
  end.

Lemma computeMergeResult_within :
  let r := computeMergeResult localToRemote baseToLocal baseToRemote in
  (forall x, x ∈ ms_added r -> x ∈ added baseToRemote)
  /\ (forall x, x ∈ ms_removed r -> x ∈ removed baseToRemote)
  /\ (forall x, x ∈ ms_updated r -> x ∈ updated baseToRemote).
Proof.
  unfold computeMergeResult.
  set (c1 := foldl _ [] (removed baseToLocal)).
  destruct (foldl _ ([], c1) (removed baseToRemote)) as [removed' c2] eqn:E2.
  set (c3 := foldl _ c2 (added baseToLocal)).
  destruct (foldl _ ([], c3) (added baseToRemote)) as [added' c4] eqn:E4.
  set (c5 := foldl _ c4 (updated baseToLocal)).
  destruct (foldl _ ([], c5) (updated baseToRemote)) as [updated' c6] eqn:E6.
  simpl. split; [|split].
  - result_within E4.
  - result_within E2.
  - result_within E6.
Qed.

End resolution.

(** ** The merge *)

Section merge_facts.
Context `{Collaborators}.

Implicit Types normalizedKeys : gmap string string.
Implicit Types local remote : list (IUserFriendlyKeybinding Args string).
Implicit Types base : option (list (IUserFriendlyKeybinding Args string)).

(** [computeMergeResultByKeybinding] in terms of the three comparisons. *)
Lemma computeMergeResultByKeybinding_eq local remote base normalizedKeys :
  computeMergeResultByKeybinding local remote base normalizedKeys =
  let localToRemote :=
    compareByKeybinding (byKeybinding local normalizedKeys)
      (byKeybinding remote normalizedKeys) in
  let baseToLocal := baseToSideByKeybinding base local normalizedKeys in
  let baseToRemote := baseToSideByKeybinding base remote normalizedKeys in
  if noChanges localToRemote then MergeResult false false [] [] [] []
  else if noChanges baseToLocal then MergeResult false true [] [] [] []
  else if noChanges baseToRemote then MergeResult true false [] [] [] []
  else
    let r := computeMergeResult localToRemote baseToLocal baseToRemote in
    MergeResult true true
      (ms_added r) (ms_removed r) (ms_updated r) (ms_conflicts r).
Proof. destruct base; reflexivity. Qed.

Lemma commandsMergeResult_eq local remote base normalizedKeys :
  commandsMergeResult local remote base normalizedKeys =
  computeMergeResult
    (compareByCommand (byCommand local) (byCommand remote) normalizedKeys)
    (baseToSideByCommand base local normalizedKeys)
    (baseToSideByCommand base remote normalizedKeys).
Proof. destruct base; reflexivity. Qed.

(** The [remoteByCommand.get(command)!] of the loops over added and
    updated commands is defined. *)
Lemma remote_group_defined local remote base normalizedKeys (c : string) :
  let r := commandsMergeResult local remote base normalizedKeys in
  c ∈ ms_added r \/ c ∈ ms_updated r ->
  is_Some (map_get (byCommand remote) c).
Proof.
  intros r Hc. subst r. rewrite commandsMergeResult_eq in Hc.
  destruct (computeMergeResult_within
              (compareByCommand (byCommand local) (byCommand remote)
                 normalizedKeys)
              (baseToSideByCommand base local normalizedKeys)
              (baseToSideByCommand base remote normalizedKeys))
    as (Ha & _ & Hu).
  apply map_get_is_Some.
  destruct Hc as [Hc|Hc]; [apply Ha in Hc | apply Hu in Hc];
    destruct base as [b|]; unfold baseToSideByCommand in Hc.
  - unfold compareByCommand in Hc. cbn [added] in Hc.
    rewrite elem_of_missing in Hc. by destruct Hc.
  - unfold allAdded in Hc. cbn [added] in Hc.
    by rewrite elem_of_to_set in Hc.
  - by apply updated_compareByCommand in Hc as (_ & ? & _).
  - inversion Hc.
Qed.

(** [merge] in terms of the flags of the binding-level result. *)
Lemma merge_eq (localContent remoteContent : string)
    (baseContent : option string) normalizedKeys :
  merge localContent remoteContent baseContent normalizedKeys =
  let local := parse localContent in
  let remote := parse remoteContent in
  let base := parseBase baseContent in
  let keybindingsMergeResult :=
    computeMergeResultByKeybinding local remote base normalizedKeys in
  let st :=
    assemble (conflicts keybindingsMergeResult) normalizedKeys remote
      (commandsMergeResult local remote base normalizedKeys) localContent in
  match hasLocalForwarded keybindingsMergeResult,
        hasRemoteForwarded keybindingsMergeResult with
  | false, false => Output localContent false false
  | false, true => Output remoteContent true false
  | true, false => Output localContent true false
  | true, true =>
      if set_empty st.2 then Output st.1 true false
      else Output (conflictBlock (getEol localContent) st.1 remoteContent)
             true true
  end.
Proof.
  unfold merge. cbv zeta.
  destruct (hasLocalForwarded _), (hasRemoteForwarded _); simpl; try done.
  destruct (assemble _ _ _ _ _) as [content cs]. simpl.
  by destruct (set_empty cs).
Qed.

(** C2. When local and remote differ under the comparison by canonical
    key: if the comparison of the base with local is empty while that of
    the base with remote is not, [merge] returns the remote text verbatim
    with [hasChanges = true] and [hasConflicts = false]; if only the
    comparison of the base with local is non-empty, it returns the local
    text verbatim with the same flags. *)
Theorem merge_forwarded (localContent remoteContent : string)
    (baseContent : option string) normalizedKeys :
  let local := parse localContent in
  let remote := parse remoteContent in
  let base := parseBase baseContent in
  noChanges (compareByKeybinding (byKeybinding local normalizedKeys)
               (byKeybinding remote normalizedKeys)) = false ->
  (noChanges (baseToSideByKeybinding base local normalizedKeys) = true ->
   noChanges (baseToSideByKeybinding base remote normalizedKeys) = false ->
   merge localContent remoteContent baseContent normalizedKeys
   = Output remoteContent true false)
  /\ (noChanges (baseToSideByKeybinding base local normalizedKeys) = false ->
      noChanges (baseToSideByKeybinding base remote normalizedKeys) = true ->
      merge localContent remoteContent baseContent normalizedKeys
      = Output localContent true false).
Proof.
  intros local remote base Hlr.
  rewrite merge_eq. cbv zeta. fold local remote base.
  rewrite computeMergeResultByKeybinding_eq. cbv zeta. rewrite Hlr.
  split; intros Hl Hr; rewrite Hl, ?Hr; reflexivity.
Qed.

(** The loops over added and updated commands never take a command out of
    the conflict set. *)
Lemma assemble_conflicts_mono (bindingConflicts : list (option string))
    normalizedKeys remote (r : IMergeSets string) (localContent : string)
    (c : string) :
  c ∈ ms_conflicts r ->
  c ∈ (assemble bindingConflicts normalizedKeys remote r localContent).2.
Proof.
  intros Hc. unfold assemble. cbv zeta.
  apply (foldl_invariant (fun st : string * list string => c ∈ st.2)).
  - apply (foldl_invariant (fun st : string * list string => c ∈ st.2));
      [done|].
    intros [content cs] a Hin. unfold addedStep. loop_round; [done|].
    destruct (escalates _ _ _ _); simpl; [by apply set_add_mono | done].
  - intros [content cs] a Hin. unfold updatedStep. loop_round; [done|].
    destruct (escalates _ _ _ _); simpl; [by apply set_add_mono | done].
Qed.

(** C3. In the resolution of three comparisons, a key removed on one side
    and updated on the other is placed in [conflicts] and in none of
    [added], [removed], [updated]; and when [merge] reaches the
    command-level merge with such a command, its result has
    [hasConflicts = true]. *)
Theorem removed_and_updated_conflict :
  (forall (K : Type) (EqK : EqDecision K)
          (localToRemote baseToLocal baseToRemote : ICompareResult K) (k : K),
      (k ∈ removed baseToLocal /\ k ∈ updated baseToRemote)
      \/ (k ∈ removed baseToRemote /\ k ∈ updated baseToLocal) ->
      let r := computeMergeResult localToRemote baseToLocal baseToRemote in
      k ∈ ms_conflicts r /\ (k ∉ ms_added r) /\ (k ∉ ms_removed r)
      /\ (k ∉ ms_updated r))
  /\ (forall (localContent remoteContent : string)
             (baseContent : option string) normalizedKeys (c : string),
      let local := parse localContent in
      let remote := parse remoteContent in
      let base := parseBase baseContent in
      let keybindingsMergeResult :=
        computeMergeResultByKeybinding local remote base normalizedKeys in
      let baseToLocal := baseToSideByCommand base local normalizedKeys in
      let baseToRemote := baseToSideByCommand base remote normalizedKeys in
      hasLocalForwarded keybindingsMergeResult = true ->
      hasRemoteForwarded keybindingsMergeResult = true ->
      (c ∈ removed baseToLocal /\ c ∈ updated baseToRemote)
      \/ (c ∈ removed baseToRemote /\ c ∈ updated baseToLocal) ->
      hasConflicts
        (merge localContent remoteContent baseContent normalizedKeys) = true).
Proof.
  split.
  - intros K EqK l2r b2l b2r k Hk.
    by apply computeMergeResult_removed_updated.
  - intros localContent remoteContent baseContent normalizedKeys c
      local remote base kmr b2l b2r Hl Hr Hc.
    rewrite merge_eq. cbv zeta. fold local remote base kmr.
    rewrite Hl, Hr.
    assert (Hin : c ∈ ms_conflicts
                    (commandsMergeResult local remote base normalizedKeys)).
    { rewrite commandsMergeResult_eq.
      by apply computeMergeResult_removed_updated. }
    apply (assemble_conflicts_mono (conflicts kmr) normalizedKeys remote _
             localContent) in Hin.
    apply set_empty_elem in Hin. by rewrite Hin.
Qed.

(** C5. [merge] returns [hasConflicts = true] exactly when it reaches the
    command-level merge and the command-level conflict set is non-empty
    at the end of the output assembly; the text is then the line
    [<<<<<<< local], the edited local text, a [=======] line, the raw
    remote text and the final [>>>>>>> remote] marker. When
    [hasConflicts] is false the text carries no added marker: it is the
    edited local text, or one of the input texts verbatim. *)
Theorem merge_conflict_block (localContent remoteContent : string)
    (baseContent : option string) normalizedKeys :
  let local := parse localContent in
  let remote := parse remoteContent in
  let base := parseBase baseContent in
  let keybindingsMergeResult :=
    computeMergeResultByKeybinding local remote base normalizedKeys in
  let st :=
    assemble (conflicts keybindingsMergeResult) normalizedKeys remote
      (commandsMergeResult local remote base normalizedKeys) localContent in
  let eol := getEol localContent in
  let out := merge localContent remoteContent baseContent normalizedKeys in
  (hasConflicts out = true
   <-> hasLocalForwarded keybindingsMergeResult = true
       /\ hasRemoteForwarded keybindingsMergeResult = true
       /\ st.2 <> [])
  /\ (hasConflicts out = true ->
      mergeContent out
      = "<<<<<<< local" +:+ eol +:+ st.1 +:+ eol +:+ "=======" +:+ eol
        +:+ remoteContent +:+ eol +:+ ">>>>>>> remote")
  /\ (hasConflicts out = false ->
      mergeContent out
      = if hasLocalForwarded keybindingsMergeResult
        then if hasRemoteForwarded keybindingsMergeResult
             then st.1 else localContent
        else if hasRemoteForwarded keybindingsMergeResult
             then remoteContent else localContent).
Proof.
  intros local remote base kmr st eol out. subst out.
  rewrite merge_eq. cbv zeta. fold local remote base kmr st eol.
  destruct (hasLocalForwarded kmr), (hasRemoteForwarded kmr); simpl;
    try (split; [split; [discriminate | intros (?&?&?); discriminate]
                | split; [discriminate | reflexivity]]).
  destruct (set_empty st.2) eqn:E; simpl.
  - apply set_empty_true in E.
    split; [split; [discriminate | intros (_&_&?); done]
           | split; [discriminate | reflexivity]].
  - split; [split; [intros _; repeat split; intros E'; by rewrite E' in E
                   | reflexivity]
           | split; [reflexivity | discriminate]].
Qed.

End merge_facts.

(** ** Grouping *)

Lemma get_group_group_push {K R : Type} `{EqDecision K}
    (k c : K) (r : R) (m : list (K * list R)) :
  get_group (group_push k r m) c
  = if decide (k = c) then get_group m c ++ [r] else get_group m c.
Proof.
  unfold get_group. induction m as [|[k' v] m IH]; simpl.
  - by destruct (decide (k = c)).
  - destruct (decide (k' = k)) as [->|Hne]; simpl.
    + destruct (decide (k = c)); simpl; done.
    + destruct (decide (k' = c)) as [->|Hne']; simpl; [|apply IH].
      destruct (decide (k = c)); [congruence | done].
Qed.

Lemma get_group_foldl {K R : Type} `{EqDecision K} (f : R -> K)
    (l : list R) (m : list (K * list R)) (c : K) :
  get_group (foldl (fun map r => group_push (f r) r map) m l) c
  = get_group m c ++ List.filter (fun r => bool_decide (f r = c)) l.
Proof.
  revert m. induction l as [|r l IH]; intros m; simpl.
  - by rewrite app_nil_r.
  - rewrite IH, get_group_group_push.
    destruct (decide (f r = c)) as [E|E].
    + rewrite bool_decide_eq_true_2 by done. by rewrite <- app_assoc.
    + by rewrite bool_decide_eq_false_2 by done.
Qed.

(** The group of a command holds the records of that command, negated or
    not, in the order of the document. *)
Lemma get_group_byCommand `{Collaborators}
    (keybindings : list (IUserFriendlyKeybinding Args string)) (c : string) :
  get_group (byCommand keybindings) c
  = List.filter (fun keybinding =>
                   String.eqb (command_name (command keybinding)) c)
      keybindings.
Proof.
  unfold byCommand.
  rewrite (get_group_foldl (fun keybinding =>
                              command_name (command keybinding))).
  simpl. apply filter_ext. intros a.
  destruct (String.eqb_spec (command_name (command a)) c).
  - by apply bool_decide_eq_true_2.
  - by apply bool_decide_eq_false_2.
Qed.

(** ** Output assembly *)

Lemma foldl_rev {S A : Type} (g : S -> A -> S) (s : S) (l : list A) :
  foldl g s (rev l) = foldr (fun a s => g s a) s l.
Proof.
  induction l as [|a l IH]; simpl; [reflexivity|].
  by rewrite foldl_app, IH.
Qed.

Lemma findFirstIndexFrom_found {T : Type} (fn : T -> bool) (array : list T)
    (i loc : nat) :
  findFirstIndexFrom i array fn = Z.of_nat loc ->
  exists j x, loc = i + j /\ array !! j = Some x /\ fn x = true
              /\ Forall (fun y => fn y = false) (take j array).
Proof.
  revert i. induction array as [|y array IH]; intros i; simpl; [lia|].
  destruct (fn y) eqn:E.
  - intros Hi. exists 0, y. repeat split; [lia | done | constructor].
  - intros Hi. apply IH in Hi as (j & x & -> & Hx & Hfx & Hall).
    exists (S j), x. repeat split; [lia | done | done | by constructor].
Qed.

Lemma filter_all_true {T : Type} (f : T -> bool) (l : list T) :
  Forall (fun y => f y = true) l -> List.filter f l = l.
Proof.
  induction 1 as [|y l Hy _ IH]; simpl; [done|]. by rewrite Hy, IH.
Qed.

Section editing.
Context `{Collaborators}.

Implicit Types keybindings : list (IUserFriendlyKeybinding Args string).

(** The editor honours its contract with the parser. *)
Hypothesis contract : editorContract.

Lemma removeEntries_parse_from (eol command' : string) keybindings :
  forall (suf pre : list (IUserFriendlyKeybinding Args string))
         (content : string),
    keybindings = pre ++ suf ->
    parse content = keybindings ->
    parse (foldr (fun index content =>
                    match keybindings !! index with
                    | Some keybinding =>
                        if hasCommand command' keybinding
                        then edit content eol [Z.of_nat index] None
                        else content
                    | None => content
                    end) content (seq (length pre) (length suf)))
    = pre ++ List.filter (fun k => negb (hasCommand command' k)) suf.
Proof.
  induction suf as [|x suf IH]; intros pre content Hall Hp; simpl.
  - rewrite app_nil_r in Hall. rewrite app_nil_r. congruence.
  - specialize (IH (pre ++ [x]) content).
    rewrite length_app, <- app_assoc in IH. simpl in IH.
    replace (length pre + 1) with (S (length pre)) in IH by lia.
    specialize (IH Hall Hp).
    assert (Hx : keybindings !! length pre = Some x)
      by (rewrite Hall; by apply list_lookup_middle).
    rewrite Hx. destruct (hasCommand command' x) eqn:E; simpl.
    + destruct contract as [Hdel _]. rewrite Hdel.
      * rewrite IH, <- app_assoc. simpl. apply delete_middle.
      * rewrite IH, !length_app. simpl. lia.
    + rewrite IH, <- app_assoc. reflexivity.
Qed.

(** The removal loop leaves exactly the records of other commands. *)
Lemma removeEntries_parse (content eol command' : string) :
  parse (removeEntries (parse content) content eol command')
  = List.filter (fun k => negb (hasCommand command' k)) (parse content).
Proof.
  unfold removeEntries, downFrom. rewrite foldl_rev.
  apply (removeEntries_parse_from eol command' (parse content)
           (parse content) [] content); reflexivity.
Qed.

Lemma insertEntries_parse_from (eol : string) (loc : nat) keybindings
    (kept : list (IUserFriendlyKeybinding Args string)) :
  loc <= length kept ->
  forall (suf pre : list (IUserFriendlyKeybinding Args string))
         (content : string),
    keybindings = pre ++ suf ->
    parse content = kept ->
    parse (foldr (fun index content =>
                    match keybindings !! index with
                    | Some keybinding =>
                        edit content eol [Z.of_nat loc] (Some keybinding)
                    | None => content
                    end) content (seq (length pre) (length suf)))
    = take loc kept ++ suf ++ drop loc kept.
Proof.
  intros Hloc. induction suf as [|x suf IH]; intros pre content Hall Hp;
    simpl.
  - by rewrite take_drop.
  - specialize (IH (pre ++ [x]) content).
    rewrite length_app, <- app_assoc in IH. simpl in IH.
    replace (length pre + 1) with (S (length pre)) in IH by lia.
    specialize (IH Hall Hp).
    assert (Hx : keybindings !! length pre = Some x)
      by (rewrite Hall; by apply list_lookup_middle).
    rewrite Hx. destruct contract as [_ Hins]. rewrite Hins.
    + rewrite IH.
      rewrite take_app_length' by (by rewrite length_take_le).
      rewrite drop_app_length' by (by rewrite length_take_le).
      reflexivity.
    + rewrite IH, length_app, length_take_le by done. lia.
Qed.

Lemma updateKeybindings_parse (content eol command' : string) keybindings
    (loc : nat) :
  findFirstIndex (parse content) (hasCommand command') = Z.of_nat loc ->
  parse (updateKeybindings content eol command' keybindings)
  = take loc (parse content) ++ keybindings
    ++ List.filter (fun k => negb (hasCommand command' k))
         (drop loc (parse content))
  /\ Forall (fun k => hasCommand command' k = false)
       (take loc (parse content)).
Proof.
  intros Hloc. unfold updateKeybindings. cbv zeta. rewrite Hloc.
  apply findFirstIndexFrom_found in Hloc as (j & x & -> & Hx & Hfx & Hno).
  simpl in *. split; [|done].
  assert (Hkeep : List.filter (fun k => negb (hasCommand command' k))
                    (take j (parse content)) = take j (parse content)).
  { apply filter_all_true. eapply Forall_impl; [exact Hno|].
    simpl. intros k ->. reflexivity. }
  assert (Hsplit : List.filter (fun k => negb (hasCommand command' k))
                     (parse content)
                   = take j (parse content)
                     ++ List.filter (fun k => negb (hasCommand command' k))
                          (drop j (parse content))).
  { rewrite <- (take_drop j (parse content)) at 1.
    by rewrite List.filter_app, Hkeep. }
  assert (Hj : j <= length (parse content))
    by (apply lookup_lt_Some in Hx; lia).
  unfold downFrom. rewrite foldl_rev.
  rewrite (insertEntries_parse_from eol j keybindings
             (List.filter (fun k => negb (hasCommand command' k))
                (parse content)) ltac:(rewrite Hsplit, length_app,
                                          length_take_le by done; lia)
             keybindings [] _ eq_refl (removeEntries_parse _ _ _)).
  rewrite Hsplit.
  rewrite take_app_length' by (by rewrite length_take_le).
  rewrite drop_app_length' by (by rewrite length_take_le).
  reflexivity.
Qed.

(** One round of the loop over updated commands, for a command that is
    not in conflict once the round is over and of which the text holds a
    record: the round deletes every record whose command is the command
    name or its negated form and inserts the records of the remote for
    that command, in their remote order, at the index of the first
    deleted record; the conflict set is left as it was. *)
Lemma updated_command_rewrite (bindingConflicts : list (option string))
    (normalizedKeys : gmap string string)
    (remote : list (IUserFriendlyKeybinding Args string))
    (eol content : string) (conflicts : list string) (command' : string)
    (loc : nat) :
  let st := updatedStep bindingConflicts normalizedKeys (byCommand remote)
              eol (content, conflicts) command' in
  let inserted :=
    List.filter (fun keybinding =>
                   String.eqb (command_name (command keybinding)) command')
      remote in
  command' ∉ st.2 ->
  findFirstIndex (parse content) (hasCommand command') = Z.of_nat loc ->
  st.1 = updateKeybindings content eol command' inserted
  /\ st.2 = conflicts
  /\ parse st.1
     = take loc (parse content) ++ inserted
       ++ List.filter (fun k => negb (hasCommand command' k))
            (drop loc (parse content))
  /\ Forall (fun k => hasCommand command' k = false)
       (take loc (parse content))
  /\ (exists first, parse content !! loc = Some first
                    /\ hasCommand command' first = true).
Proof.
  intros st inserted Hc Hloc. subst st inserted.
  unfold updatedStep in *.
  destruct (set_has conflicts command') eqn:Ec;
    [apply set_has_true in Ec; simpl in Hc; contradiction|].
  destruct (escalates _ _ _ _) eqn:Ee; simpl in *;
    [exfalso; apply Hc, elem_of_set_add; auto|].
  rewrite get_group_byCommand.
  destruct (updateKeybindings_parse content eol command'
              (List.filter (fun keybinding =>
                 String.eqb (command_name (command keybinding)) command')
                 remote) loc Hloc) as [Hp Hno].
  repeat split; [done | done |].
  apply findFirstIndexFrom_found in Hloc as (j & x & -> & Hx & Hfx & _).
  by exists x.
Qed.

End editing.

(** ** The guard of the added and updated commands *)

Section guard.
Context `{Collaborators}.

Implicit Types normalizedKeys : gmap string string.
Implicit Types keybindings : list (IUserFriendlyKeybinding Args string).

Lemma escalates_true (bindingConflicts : list (option string))
    normalizedKeys (command' : string) keybindings :
  escalates bindingConflicts normalizedKeys command' keybindings = true
  <-> exists keybinding,
        keybinding ∈ keybindings
        /\ command keybinding <> negation_of command'
        /\ normalizedKeys !! key keybinding ∈ bindingConflicts.
Proof.
  unfold escalates. rewrite existsb_exists. split.
  - intros (kb & Hin & Hb). apply andb_true_iff in Hb as [Hn Hs].
    exists kb. rewrite list_elem_of_In. split; [done|].
    apply negb_true_iff in Hn. apply set_has_true in Hs. split; [|done].
    intros E. rewrite E, String.eqb_refl in Hn. discriminate.
  - intros (kb & Hin & Hn & Hs). exists kb.
    rewrite <- list_elem_of_In. split; [done|].
    apply andb_true_iff. split; [|by apply set_has_true].
    apply negb_true_iff. by apply String.eqb_neq.
Qed.

(** C4, as amended. The binding-level conflict set that the guard consults
    is the conflict set resolved from the three comparisons by canonical
    key whenever both sides have moved forward (the only case in which the
    guard is evaluated), and it is empty otherwise; the guard escalates a
    command exactly when one of its remote records that is not the
    negation of the command has its canonical key in that set. *)
Theorem binding_conflicts_at_guard
    (local remote : list (IUserFriendlyKeybinding Args string))
    (base : option (list (IUserFriendlyKeybinding Args string)))
    normalizedKeys :
  let localToRemote :=
    compareByKeybinding (byKeybinding local normalizedKeys)
      (byKeybinding remote normalizedKeys) in
  let baseToLocal := baseToSideByKeybinding base local normalizedKeys in
  let baseToRemote := baseToSideByKeybinding base remote normalizedKeys in
  let keybindingsMergeResult :=
    computeMergeResultByKeybinding local remote base normalizedKeys in
  (hasLocalForwarded keybindingsMergeResult
   && hasRemoteForwarded keybindingsMergeResult = true
   <-> noChanges localToRemote = false /\ noChanges baseToLocal = false
       /\ noChanges baseToRemote = false)
  /\ conflicts keybindingsMergeResult
     = (if hasLocalForwarded keybindingsMergeResult
           && hasRemoteForwarded keybindingsMergeResult
        then ms_conflicts
               (computeMergeResult localToRemote baseToLocal baseToRemote)
        else [])
  /\ (forall (command' : string) keybindings,
        escalates (conflicts keybindingsMergeResult) normalizedKeys command'
          keybindings = true
        <-> exists keybinding,
              keybinding ∈ keybindings
              /\ command keybinding <> negation_of command'
              /\ normalizedKeys !! key keybinding
                 ∈ conflicts keybindingsMergeResult).
Proof.
  intros l2r b2l b2r kmr. subst kmr.
  rewrite computeMergeResultByKeybinding_eq. cbv zeta. fold l2r b2l b2r.
  split; [|split; [|intros; apply escalates_true]].
  - destruct (noChanges l2r), (noChanges b2l), (noChanges b2r); simpl;
      intuition congruence.
  - by destruct (noChanges l2r), (noChanges b2l), (noChanges b2r).
Qed.

(** C10. The guard tests only the remote records whose command is not the
    negated form of the command against the binding-level conflict set;
    a command all of whose remote records are negations is never
    escalated, whatever their canonical keys: the rounds of both loops
    leave the conflict set as it was. *)
Theorem escalates_ignores_negated (bindingConflicts : list (option string))
    normalizedKeys (command' : string) keybindings :
  escalates bindingConflicts normalizedKeys command' keybindings
  = existsb (fun keybinding =>
               set_has bindingConflicts (normalizedKeys !! key keybinding))
      (List.filter (fun keybinding =>
                      negb (String.eqb (command keybinding)
                              (negation_of command'))) keybindings)
  /\ (Forall (fun keybinding => command keybinding = negation_of command')
        keybindings ->
      escalates bindingConflicts normalizedKeys command' keybindings = false)
  /\ (forall (remoteByCommand :
                list (string * list (IUserFriendlyKeybinding Args string)))
             (eol : string) (st : string * list string),
        Forall (fun keybinding => command keybinding = negation_of command')
          (get_group remoteByCommand command') ->
        (addedStep bindingConflicts normalizedKeys remoteByCommand eol st
           command').2 = st.2
        /\ (updatedStep bindingConflicts normalizedKeys remoteByCommand eol st
              command').2 = st.2).
Proof.
  assert (Hneg : forall kbs : list (IUserFriendlyKeybinding Args string),
             Forall (fun keybinding =>
                       command keybinding = negation_of command') kbs ->
             escalates bindingConflicts normalizedKeys command' kbs = false).
  { intros kbs HF. unfold escalates.
    induction HF as [|kb kbs Hkb _ IH]; simpl; [reflexivity|].
    by rewrite Hkb, String.eqb_refl, IH. }
  split; [|split; [apply Hneg|]].
  - unfold escalates.
    induction keybindings as [|kb kbs IH]; simpl; [reflexivity|].
    destruct (String.eqb (command kb) (negation_of command')); simpl;
      [done | by rewrite IH].
  - intros remoteByCommand eol [content cs] HF.
    unfold addedStep, updatedStep. rewrite (Hneg _ HF).
    by destruct (set_has cs command').
Qed.

End guard.

(** ** Grouping: lookups, keys and contents *)

Section grouping_facts.
Context {K R : Type} `{EqDecision K}.

Implicit Types m : list (K * list R).

Lemma map_keys_group_push (k : K) (r : R) m :
  map_keys (group_push k r m) = set_add k (map_keys m).
Proof.
  unfold map_keys, set_add. induction m as [|[k' v] m IH]; csimpl.
  - reflexivity.
  - destruct (decide (k' = k)) as [->|Hne]; csimpl.
    + rewrite (proj2 (set_has_true _ _)); [reflexivity | left].
    + rewrite IH. destruct (set_has (m.*1) k) eqn:E.
      * apply set_has_true in E.
        rewrite (proj2 (set_has_true _ _)); [reflexivity | by right].
      * apply set_has_false in E.
        rewrite (proj2 (set_has_false _ _)); [reflexivity|].
        intros Hin. apply elem_of_cons in Hin as [?|?]; congruence.
Qed.

Lemma map_keys_foldl_group_push (f : R -> K) (l : list R) m :
  map_keys (foldl (fun map r => group_push (f r) r map) m l)
  = foldl (fun s k => set_add k s) (map_keys m) (map f l).
Proof.
  revert m. induction l as [|r l IH]; intros m; simpl; [reflexivity|].
  by rewrite IH, map_keys_group_push.
Qed.

Lemma NoDup_set_add (k : K) (s : list K) : NoDup s -> NoDup (set_add k s).
Proof.
  intros Hs. unfold set_add. destruct (set_has s k) eqn:E; [done|].
  apply set_has_false in E. apply NoDup_app. repeat split; [done| |].
  - intros x Hx Hk. apply list_elem_of_singleton in Hk. by subst.
  - apply NoDup_singleton.
Qed.

Lemma NoDup_foldl_set_add (l s : list K) :
  NoDup s -> NoDup (foldl (fun s k => set_add k s) s l).
Proof.
  revert s. induction l as [|k l IH]; intros s Hs; simpl; [done|].
  by apply IH, NoDup_set_add.
Qed.

Lemma NoDup_to_set (l : list K) : NoDup (to_set l).
Proof. apply NoDup_foldl_set_add. constructor. Qed.

Lemma groups_group_push (k : K) (r : R) m :
  concat (group_push k r m).*2 ≡ₚ concat m.*2 ++ [r].
Proof.
  induction m as [|[k' v] m IH]; csimpl; [reflexivity|].
  destruct (decide (k' = k)); csimpl.
  - rewrite <- !app_assoc. apply Permutation_app_head, Permutation_app_comm.
  - by rewrite IH, app_assoc.
Qed.

Lemma groups_foldl_group_push (f : R -> K) (l : list R) m :
  concat (foldl (fun map r => group_push (f r) r map) m l).*2
  ≡ₚ concat m.*2 ++ l.
Proof.
  revert m. induction l as [|r l IH]; intros m; simpl.
  - by rewrite app_nil_r.
  - rewrite IH, groups_group_push, <- app_assoc. reflexivity.
Qed.

Lemma map_get_foldl_group_push (f : R -> K) (l : list R) (k : K) :
  map_get (foldl (fun map r => group_push (f r) r map) [] l) k
  = match List.filter (fun r => bool_decide (f r = k)) l with
    | [] => None
    | g => Some g
    end.
Proof.
  pose proof (get_group_foldl f l [] k) as Hg. simpl in Hg.
  pose proof (map_get_is_Some
                (foldl (fun map r => group_push (f r) r map) [] l) k) as Hk.
  rewrite map_keys_foldl_group_push in Hk. simpl in Hk.
  fold (to_set (map f l)) in Hk. rewrite elem_of_to_set in Hk.
  unfold get_group in Hg.
  destruct (map_get _ k) as [g|]; simpl in Hg.
  - subst g. destruct Hk as [Hk _].
    specialize (Hk ltac:(eauto)).
    apply list_elem_of_fmap in Hk as (r & -> & Hr).
    destruct (List.filter _ l) eqn:E; [|reflexivity].
    assert (Hin : r ∈ List.filter (fun r0 => bool_decide (f r0 = f r)) l)
      by (apply elem_of_filter_bool; split;
          [done | by apply bool_decide_eq_true_2]).
    rewrite E in Hin. inversion Hin.
  - by rewrite <- Hg.
Qed.

End grouping_facts.

(** ** Names of commands *)

Lemma is_negated_cons (a : ascii) (s : string) :
  is_negated (String a s) = Ascii.eqb a "-".
Proof. destruct a as [[] [] [] [] [] [] [] []]; reflexivity. Qed.

Lemma command_name_cons (a : ascii) (s : string) :
  command_name (String a s) = if Ascii.eqb a "-" then s else String a s.
Proof. destruct a as [[] [] [] [] [] [] [] []]; reflexivity. Qed.

Lemma command_name_negation (s c : string) :
  String.eqb (command_name s) (negation_of c)
  = String.eqb s (negation_of (negation_of c)).
Proof.
  unfold negation_of. destruct s as [|a s]; [reflexivity|].
  rewrite command_name_cons.
  destruct (Ascii.eqb_spec a "-") as [->|Ha].
  - cbn [String.eqb]. by rewrite Ascii.eqb_refl.
  - cbn [String.eqb].
    destruct (Ascii.eqb_spec a "-") as [->|_]; [by destruct Ha|].
    reflexivity.
Qed.

Section plain_names.
Context `{Collaborators}.

Implicit Types keybinding : IUserFriendlyKeybinding Args string.

Lemma hasCommand_plain (c : string) keybinding :
  is_negated c = false ->
  hasCommand c keybinding
  = String.eqb (command_name (command keybinding)) c.
Proof.
  intros Hc. unfold hasCommand, negation_of.
  destruct (command keybinding) as [|a s].
  - simpl. by rewrite orb_false_r.
  - rewrite command_name_cons.
    destruct (Ascii.eqb_spec a "-") as [->|Ha].
    + destruct c as [|b c]; [reflexivity|].
      rewrite is_negated_cons in Hc. cbn [String.eqb].
      rewrite Ascii.eqb_sym, Hc, Ascii.eqb_refl. reflexivity.
    + cbn [String.eqb].
      destruct (Ascii.eqb_spec a "-") as [->|_]; [by destruct Ha|].
      by rewrite orb_false_r.
Qed.

End plain_names.

Section grouping_of_records.
Context `{Collaborators}.

Implicit Types keybindings : list (IUserFriendlyKeybinding Args string).

(** X1. A lookup in the grouping by canonical key returns the records
    whose key has that canonical form, in the order of the document, and
    nothing when no record has it. *)
Theorem byKeybinding_lookup keybindings (normalizedKeys : gmap string string)
    (k : option string) :
  map_get (byKeybinding keybindings normalizedKeys) k
  = match List.filter (fun keybinding =>
                         bool_decide (normalizedKeys !! key keybinding = k))
            keybindings with
    | [] => None
    | group => Some group
    end.
Proof.
  unfold byKeybinding.
  apply (map_get_foldl_group_push
           (fun keybinding => normalizedKeys !! key keybinding)).
Qed.

(** X2. A lookup in the grouping by command returns the records whose
    command, with one leading dash stripped, is the key, in the order of
    the document, and nothing when there is none. For a key without a
    leading dash these are the records of that command and of its
    negation; a key with a leading dash, [-c], holds the records of
    [--c] only, the records of [-c] being grouped under [c]. *)
Theorem byCommand_lookup keybindings (c : string) :
  map_get (byCommand keybindings) c
  = match List.filter (fun keybinding =>
                         String.eqb (command_name (command keybinding)) c)
            keybindings with
    | [] => None
    | group => Some group
    end
  /\ (is_negated c = false ->
      map_get (byCommand keybindings) c
      = match List.filter (hasCommand c) keybindings with
        | [] => None
        | group => Some group
        end)
  /\ map_get (byCommand keybindings) (negation_of c)
     = match List.filter (fun keybinding =>
                            String.eqb (command keybinding)
                              (negation_of (negation_of c)))
               keybindings with
       | [] => None
       | group => Some group
       end.
Proof.
  assert (Hget : forall c',
             map_get (byCommand keybindings) c'
             = match List.filter (fun keybinding =>
                         String.eqb (command_name (command keybinding)) c')
                 keybindings with
               | [] => None
               | group => Some group
               end).
  { intros c'. unfold byCommand.
    rewrite (map_get_foldl_group_push
               (fun keybinding => command_name (command keybinding))).
    replace (List.filter (fun r => bool_decide
                            (command_name (command r) = c')) keybindings)
      with (List.filter (fun keybinding =>
                           String.eqb (command_name (command keybinding)) c')
              keybindings); [reflexivity|].
    apply filter_ext. intros a.
    destruct (String.eqb_spec (command_name (command a)) c').
    - by rewrite bool_decide_eq_true_2.
    - by rewrite bool_decide_eq_false_2. }
  split; [apply Hget | split].
  - intros Hc. rewrite Hget.
    replace (List.filter (hasCommand c) keybindings)
      with (List.filter (fun keybinding =>
                           String.eqb (command_name (command keybinding)) c)
              keybindings); [reflexivity|].
    apply filter_ext. intros a. symmetry. by apply hasCommand_plain.
  - rewrite Hget.
    replace (List.filter (fun keybinding =>
                            String.eqb (command keybinding)
                              (negation_of (negation_of c))) keybindings)
      with (List.filter (fun keybinding =>
                           String.eqb (command_name (command keybinding))
                             (negation_of c)) keybindings); [reflexivity|].
    apply filter_ext. intros a. apply command_name_negation.
Qed.

(** X3. The keys of a grouping are the distinct projections of the
    records in the order of their first occurrence, and the groups
    together hold every record of the document once. *)
Theorem grouping_keys_and_contents keybindings
    (normalizedKeys : gmap string string) :
  (map_keys (byKeybinding keybindings normalizedKeys)
   = to_set (map (fun keybinding => normalizedKeys !! key keybinding)
               keybindings)
   /\ NoDup (map_keys (byKeybinding keybindings normalizedKeys))
   /\ concat (byKeybinding keybindings normalizedKeys).*2 ≡ₚ keybindings)
  /\ (map_keys (byCommand keybindings)
      = to_set (map (fun keybinding => command_name (command keybinding))
                  keybindings)
      /\ NoDup (map_keys (byCommand keybindings))
      /\ concat (byCommand keybindings).*2 ≡ₚ keybindings).
Proof.
  unfold byKeybinding, byCommand.
  rewrite !map_keys_foldl_group_push. simpl.
  repeat split; try apply NoDup_to_set;
    apply (groups_foldl_group_push _ keybindings []).
Qed.

(** X4. In both compare functions [added] holds the keys of [to] that
    [from] lacks and [removed] the keys of [from] that [to] lacks; the
    three sets are pairwise disjoint, and [updated] holds keys of both
    maps only. *)
Theorem compare_sets
    (from to :
       list (option string * list (IUserFriendlyKeybinding Args string)))
    (fromC toC : list (string * list (IUserFriendlyKeybinding Args string)))
    (normalizedKeys : gmap string string) :
  let r := compareByKeybinding from to in
  let rC := compareByCommand fromC toC normalizedKeys in
  ((forall k, k ∈ added r <-> k ∈ map_keys to /\ (k ∉ map_keys from))
   /\ (forall k, k ∈ removed r <-> k ∈ map_keys from /\ (k ∉ map_keys to))
   /\ (forall k, k ∈ updated r -> k ∈ map_keys from /\ k ∈ map_keys to)
   /\ (forall k, ~ (k ∈ added r /\ k ∈ removed r))
   /\ (forall k, ~ (k ∈ added r /\ k ∈ updated r))
   /\ (forall k, ~ (k ∈ removed r /\ k ∈ updated r)))
  /\ ((forall c, c ∈ added rC <-> c ∈ map_keys toC /\ (c ∉ map_keys fromC))
      /\ (forall c,
            c ∈ removed rC <-> c ∈ map_keys fromC /\ (c ∉ map_keys toC))
      /\ (forall c, c ∈ updated rC -> c ∈ map_keys fromC /\ c ∈ map_keys toC)
      /\ (forall c, ~ (c ∈ added rC /\ c ∈ removed rC))
      /\ (forall c, ~ (c ∈ added rC /\ c ∈ updated rC))
      /\ (forall c, ~ (c ∈ removed rC /\ c ∈ updated rC))).
Proof.
  intros r rC.
  assert (Ha : forall k, k ∈ added r
                         <-> k ∈ map_keys to /\ (k ∉ map_keys from))
    by (intros k; apply elem_of_missing).
  assert (Hr : forall k, k ∈ removed r
                         <-> k ∈ map_keys from /\ (k ∉ map_keys to))
    by (intros k; apply elem_of_missing).
  assert (Hu : forall k, k ∈ updated r -> k ∈ map_keys from /\ k ∈ map_keys to)
    by (intros k Hk; apply updated_compareByKeybinding in Hk; tauto).
  assert (HaC : forall c, c ∈ added rC
                          <-> c ∈ map_keys toC /\ (c ∉ map_keys fromC))
    by (intros c; apply elem_of_missing).
  assert (HrC : forall c, c ∈ removed rC
                          <-> c ∈ map_keys fromC /\ (c ∉ map_keys toC))
    by (intros c; apply elem_of_missing).
  assert (HuC : forall c, c ∈ updated rC
                          -> c ∈ map_keys fromC /\ c ∈ map_keys toC)
    by (intros c Hc; apply updated_compareByCommand in Hc; tauto).
  split; (split; [done | split; [done | split; [done|]]]).
  - repeat split; intros k [H1 H2];
      rewrite ?Ha, ?Hr in *; try apply Hu in H2; tauto.
  - repeat split; intros k [H1 H2];
      rewrite ?HaC, ?HrC in *; try apply HuC in H2; tauto.
Qed.

End grouping_of_records.

(** ** The resolution, rule by rule *)

Section loops.
Context {K : Type} `{EqDecision K}.

(** A loop that only grows the conflict set. *)
Lemma conflict_loop_char (f : list K -> K -> list K) (test : K -> bool)
    (l c0 : list K) :
  (forall c k, f c k = if set_has c k then c
                       else if test k then set_add k c else c) ->
  forall x, x ∈ foldl f c0 l <-> x ∈ c0 \/ (x ∈ l /\ test x = true).
Proof.
  intros Hf. revert c0. induction l as [|k l IH]; intros c0 x; simpl.
  - rewrite elem_of_nil. tauto.
  - rewrite IH, Hf, elem_of_cons.
    destruct (set_has c0 k) eqn:Ec;
      [apply set_has_true in Ec | apply set_has_false in Ec];
      [|destruct (test k) eqn:Et]; rewrite ?elem_of_set_add;
      intuition (subst; auto; congruence).
Qed.

(** A loop that fills a result set and may grow the conflict set. *)
Lemma result_loop_char (f : list K * list K -> K -> list K * list K)
    (tc tr : K -> bool) (l r0 c0 : list K) :
  (forall r c k,
      f (r, c) k = if set_has c k then (r, c)
                   else if tc k then (r, set_add k c)
                   else if tr k then (set_add k r, c) else (r, c)) ->
  forall x,
    (x ∈ (foldl f (r0, c0) l).2 <-> x ∈ c0 \/ (x ∈ l /\ tc x = true))
    /\ (x ∈ (foldl f (r0, c0) l).1
        <-> x ∈ r0 \/ (x ∈ l /\ (x ∉ c0) /\ tc x = false /\ tr x = true)).
Proof.
  intros Hf. revert r0 c0.
  induction l as [|k l IH]; intros r0 c0 x; simpl.
  - rewrite elem_of_nil. tauto.
  - rewrite Hf, !elem_of_cons.
    destruct (set_has c0 k) eqn:Ec;
      [apply set_has_true in Ec | apply set_has_false in Ec];
      [|destruct (tc k) eqn:Et; [|destruct (tr k) eqn:Er]];
      match goal with |- context [foldl f (?r, ?c) l] =>
        destruct (IH r c x) as [-> ->] end; clear IH;
      rewrite ?elem_of_set_add;
      intuition (subst; auto; congruence).
Qed.

End loops.

Ltac step_equation :=
  intros; unfold set_add;
  repeat match goal with
    | |- context [set_has ?s ?k] => destruct (set_has s k) eqn:?
    end;
  simpl; try reflexivity; congruence.

Section resolution_rules.
Context {K : Type} `{EqDecision K}.
Variables localToRemote baseToLocal baseToRemote : ICompareResult K.

Lemma computeMergeResult_char (k : K) :
  let r := computeMergeResult localToRemote baseToLocal baseToRemote in
  let removedUpdated :=
    (k ∈ removed baseToLocal /\ k ∈ updated baseToRemote)
    \/ (k ∈ removed baseToRemote /\ k ∈ updated baseToLocal) in
  let addedTwice :=
    k ∈ added baseToLocal /\ k ∈ added baseToRemote
    /\ k ∈ updated localToRemote in
  let updatedTwice :=
    k ∈ updated baseToLocal /\ k ∈ updated baseToRemote
    /\ k ∈ updated localToRemote in
  (k ∈ ms_conflicts r <-> removedUpdated \/ addedTwice \/ updatedTwice)
  /\ (k ∈ ms_removed r
      <-> k ∈ removed baseToRemote /\ (k ∉ updated baseToLocal)
          /\ ~ (k ∈ removed baseToLocal /\ k ∈ updated baseToRemote))
  /\ (k ∈ ms_added r
      <-> k ∈ added baseToRemote /\ (k ∉ added baseToLocal)
          /\ ~ removedUpdated)
  /\ (k ∈ ms_updated r
      <-> k ∈ updated baseToRemote /\ (k ∉ updated baseToLocal)
          /\ ~ removedUpdated /\ ~ addedTwice).
Proof.
  intros r removedUpdated addedTwice updatedTwice.
  subst r removedUpdated addedTwice updatedTwice.
  unfold computeMergeResult.
  (* Removed keys in Local *)
  match goal with |- context [foldl ?f [] (removed baseToLocal)] =>
    pose proof (conflict_loop_char f
                  (fun k => set_has (updated baseToRemote) k)
                  (removed baseToLocal) [] ltac:(step_equation) k) as H1;
    set (c1 := foldl f [] (removed baseToLocal)) in *
  end.
  (* Removed keys in Remote *)
  match goal with |- context [foldl ?f ([], c1) (removed baseToRemote)] =>
    pose proof (result_loop_char f
                  (fun k => set_has (updated baseToLocal) k)
                  (fun _ => true)
                  (removed baseToRemote) [] c1
                  ltac:(intros ? ? ?; cbv beta iota; step_equation) k)
      as [H2c H2r];
    destruct (foldl f ([], c1) (removed baseToRemote)) as [removed' c2]
  end.
  (* Added keys in Local *)
  match goal with |- context [foldl ?f c2 (added baseToLocal)] =>
    pose proof (conflict_loop_char f
                  (fun k => set_has (added baseToRemote) k
                            && set_has (updated localToRemote) k)
                  (added baseToLocal) c2 ltac:(step_equation) k) as H3;
    set (c3 := foldl f c2 (added baseToLocal)) in *
  end.
  (* Added keys in remote *)
  match goal with |- context [foldl ?f ([], c3) (added baseToRemote)] =>
    pose proof (result_loop_char f
                  (fun k => set_has (added baseToLocal) k
                            && set_has (updated localToRemote) k)
                  (fun k => negb (set_has (added baseToLocal) k))
                  (added baseToRemote) [] c3
                  ltac:(intros ? ? ?; cbv beta iota; step_equation) k)
      as [H4c H4r];
    destruct (foldl f ([], c3) (added baseToRemote)) as [added' c4]
  end.
  (* Updated keys in Local *)
  match goal with |- context [foldl ?f c4 (updated baseToLocal)] =>
    pose proof (conflict_loop_char f
                  (fun k => set_has (updated baseToRemote) k
                            && set_has (updated localToRemote) k)
                  (updated baseToLocal) c4 ltac:(step_equation) k) as H5;
    set (c5 := foldl f c4 (updated baseToLocal)) in *
  end.
  (* Updated keys in Remote *)
  match goal with |- context [foldl ?f ([], c5) (updated baseToRemote)] =>
    pose proof (result_loop_char f
                  (fun k => set_has (updated baseToLocal) k
                            && set_has (updated localToRemote) k)
                  (fun k => negb (set_has (updated baseToLocal) k))
                  (updated baseToRemote) [] c5
                  ltac:(intros ? ? ?; cbv beta iota; step_equation) k)
      as [H6c H6r];
    destruct (foldl f ([], c5) (updated baseToRemote)) as [updated' c6]
  end.
  simpl in *. clearbody c1 c3 c5.
  rewrite ?andb_true_iff, ?andb_false_iff, ?negb_true_iff, ?set_has_true,
    ?set_has_false, ?elem_of_nil in *.
  rewrite H1 in H2c, H2r. rewrite H2c in H3. rewrite H3 in H4c, H4r.
  rewrite H4c in H5. rewrite H5 in H6c, H6r.
  rewrite H6c, H2r, H4r, H6r. clear -EqDecision0.
  split; [|split; [|split]].
  - tauto.
  - tauto.
  - destruct (decide (k ∈ added baseToLocal)); tauto.
  - destruct (decide (k ∈ updated baseToLocal)),
      (decide (k ∈ added baseToLocal)); tauto.
Qed.

(** X5. The resolution of three comparisons, rule by rule. A key is in
    [conflicts] exactly when one side removed it and the other updated
    it, or both sides added it or both updated it with different
    results; it is in [removed], [added] or [updated] exactly when the
    remote removed, added or updated it, the local did not make the same
    kind of change (for a removal: did not update it), and no earlier
    rule made it a conflict. *)
Theorem computeMergeResult_rules (k : K) :
  let r := computeMergeResult localToRemote baseToLocal baseToRemote in
  (k ∈ ms_conflicts r
   <-> (k ∈ removed baseToLocal /\ k ∈ updated baseToRemote)
       \/ (k ∈ removed baseToRemote /\ k ∈ updated baseToLocal)
       \/ (k ∈ added baseToLocal /\ k ∈ added baseToRemote
           /\ k ∈ updated localToRemote)
       \/ (k ∈ updated baseToLocal /\ k ∈ updated baseToRemote
           /\ k ∈ updated localToRemote))
  /\ (k ∈ ms_removed r
      <-> k ∈ removed baseToRemote /\ (k ∉ updated baseToLocal)
          /\ ~ (k ∈ removed baseToLocal /\ k ∈ updated baseToRemote))
  /\ (k ∈ ms_added r
      <-> k ∈ added baseToRemote /\ (k ∉ added baseToLocal)
          /\ ~ (k ∈ removed baseToLocal /\ k ∈ updated baseToRemote)
          /\ ~ (k ∈ removed baseToRemote /\ k ∈ updated baseToLocal))
  /\ (k ∈ ms_updated r
      <-> k ∈ updated baseToRemote /\ (k ∉ updated baseToLocal)
          /\ ~ (k ∈ removed baseToLocal /\ k ∈ updated baseToRemote)
          /\ ~ (k ∈ removed baseToRemote /\ k ∈ updated baseToLocal)
          /\ ~ (k ∈ added baseToLocal /\ k ∈ added baseToRemote
                /\ k ∈ updated localToRemote)).
Proof.
  intros r. subst r.
  pose proof (computeMergeResult_char k) as Hc. cbv zeta in Hc.
  destruct Hc as (Hc & Hr & Ha & Hu).
  split; [|split; [|split]].
  - rewrite Hc. clear. tauto.
  - rewrite Hr. clear. tauto.
  - rewrite Ha. clear. tauto.
  - rewrite Hu. clear. tauto.
Qed.

End resolution_rules.

Lemma nil_iff_no_elem {A : Type} (l : list A) : l = [] <-> forall x, x ∉ l.
Proof.
  split; [intros -> x Hx; inversion Hx|].
  destruct l as [|a l]; [done|]. intros Hl. destruct (Hl a). left.
Qed.

Section command_resolution.
Context `{Collaborators}.

Implicit Types normalizedKeys : gmap string string.
Implicit Types local remote : list (IUserFriendlyKeybinding Args string).
Implicit Types base : option (list (IUserFriendlyKeybinding Args string)).

Lemma baseToSideByCommand_disjoint base remote normalizedKeys (c : string) :
  let r := baseToSideByCommand base remote normalizedKeys in
  ~ (c ∈ added r /\ c ∈ removed r)
  /\ ~ (c ∈ added r /\ c ∈ updated r)
  /\ ~ (c ∈ removed r /\ c ∈ updated r).
Proof.
  destruct base as [b|]; unfold baseToSideByCommand; cbv zeta.
  - pose proof (elem_of_missing (map_keys (byCommand remote))
                  (map_keys (byCommand b)) c) as Ha.
    pose proof (elem_of_missing (map_keys (byCommand b))
                  (map_keys (byCommand remote)) c) as Hr.
    pose proof (updated_compareByCommand (byCommand b) (byCommand remote)
                  normalizedKeys c) as Hu.
    change (c ∈ added (compareByCommand (byCommand b) (byCommand remote)
                         normalizedKeys)
            <-> c ∈ map_keys (byCommand remote)
                /\ (c ∉ map_keys (byCommand b))) in Ha.
    change (c ∈ removed (compareByCommand (byCommand b) (byCommand remote)
                           normalizedKeys)
            <-> c ∈ map_keys (byCommand b)
                /\ (c ∉ map_keys (byCommand remote))) in Hr.
    rewrite Ha, Hr, Hu. clear. tauto.
  - unfold allAdded. cbn [added removed updated]. rewrite elem_of_nil.
    clear. tauto.
Qed.

(** X6. In the command-level result that [merge] computes, the four sets
    are pairwise disjoint: a command is at most one of added, removed,
    updated and in conflict. *)
Theorem commandsMergeResult_disjoint local remote base normalizedKeys
    (c : string) :
  let r := commandsMergeResult local remote base normalizedKeys in
  ~ (c ∈ ms_conflicts r /\ c ∈ ms_added r)
  /\ ~ (c ∈ ms_conflicts r /\ c ∈ ms_removed r)
  /\ ~ (c ∈ ms_conflicts r /\ c ∈ ms_updated r)
  /\ ~ (c ∈ ms_added r /\ c ∈ ms_removed r)
  /\ ~ (c ∈ ms_added r /\ c ∈ ms_updated r)
  /\ ~ (c ∈ ms_removed r /\ c ∈ ms_updated r).
Proof.
  intros r. subst r. rewrite commandsMergeResult_eq.
  pose proof (computeMergeResult_char
                (compareByCommand (byCommand local) (byCommand remote)
                   normalizedKeys)
                (baseToSideByCommand base local normalizedKeys)
                (baseToSideByCommand base remote normalizedKeys) c) as Hc.
  cbv zeta in Hc. destruct Hc as (Hc & Hr & Ha & Hu).
  pose proof (baseToSideByCommand_disjoint base remote normalizedKeys c)
    as Hd.
  cbv zeta in Hd. rewrite Hc, Hr, Ha, Hu. tauto.
Qed.

(** X7. Without a base the command-level result removes and updates
    nothing: the commands of the remote that the local lacks are added,
    and the commands of both sides whose records differ are in
    conflict. *)
Theorem commandsMergeResult_no_base local remote normalizedKeys :
  let r := commandsMergeResult local remote None normalizedKeys in
  ms_removed r = [] /\ ms_updated r = []
  /\ (forall c, c ∈ ms_added r
                <-> c ∈ map_keys (byCommand remote)
                    /\ (c ∉ map_keys (byCommand local)))
  /\ (forall c, c ∈ ms_conflicts r
                <-> c ∈ map_keys (byCommand local)
                    /\ c ∈ map_keys (byCommand remote)
                    /\ c ∈ updated (compareByCommand (byCommand local)
                                      (byCommand remote) normalizedKeys)).
Proof.
  intros r. subst r. rewrite commandsMergeResult_eq.
  assert (Hc : forall c, _) by
    (intros c; exact (computeMergeResult_char
        (compareByCommand (byCommand local) (byCommand remote)
           normalizedKeys)
        (baseToSideByCommand None local normalizedKeys)
        (baseToSideByCommand None remote normalizedKeys) c)).
  cbv zeta in Hc. unfold baseToSideByCommand, allAdded in Hc.
  cbn [added removed updated] in Hc.
  split; [|split; [|split]].
  - apply nil_iff_no_elem. intros c. destruct (Hc c) as (_ & -> & _).
    rewrite elem_of_nil. tauto.
  - apply nil_iff_no_elem. intros c. destruct (Hc c) as (_ & _ & _ & ->).
    rewrite elem_of_nil. tauto.
  - intros c. destruct (Hc c) as (_ & _ & -> & _).
    rewrite !elem_of_to_set, !elem_of_nil. tauto.
  - intros c. destruct (Hc c) as (-> & _).
    rewrite !elem_of_to_set, !elem_of_nil. tauto.
Qed.

End command_resolution.

(** ** Edits of the text *)

Lemma findFirstIndexFrom_none {T : Type} (fn : T -> bool) (array : list T)
    (i : nat) :
  Forall (fun x => fn x = false) array ->
  findFirstIndexFrom i array fn = (-1)%Z.
Proof.
  intros HF. revert i. induction HF as [|x l Hx _ IH]; intros i; simpl.
  - reflexivity.
  - rewrite Hx. apply IH.
Qed.

Lemma findFirstIndexFrom_some {T : Type} (fn : T -> bool) (array : list T)
    (i : nat) (x : T) :
  x ∈ array -> fn x = true ->
  exists loc, findFirstIndexFrom i array fn = Z.of_nat loc.
Proof.
  intros Hin Hx. revert i.
  induction array as [|y l IH]; intros i; [inversion Hin|]. simpl.
  destruct (fn y) eqn:Ey; [by exists i|].
  apply elem_of_cons in Hin as [->|Hin]; [congruence|]. by apply IH.
Qed.

Section names.
Context `{Collaborators}.

Implicit Types keybinding : IUserFriendlyKeybinding Args string.

(** X8. For a command name that does not start with a dash, the test of
    the edit loops selects exactly the records grouped under that name.
    For a name of the form [-c] it also selects the records whose
    command is [-c], which are grouped under [c]. *)
Theorem hasCommand_grouping (c : string) keybinding :
  (is_negated c = false ->
   hasCommand c keybinding
   = String.eqb (command_name (command keybinding)) c)
  /\ (command keybinding = negation_of c ->
      hasCommand (negation_of c) keybinding = true
      /\ command_name (command keybinding) = c
      /\ command_name (command keybinding) <> negation_of c).
Proof.
  split; [apply hasCommand_plain|].
  intros E. unfold hasCommand. rewrite E, String.eqb_refl. simpl.
  repeat split. unfold negation_of. intros Hc.
  assert (Hl : String.length c = String.length (String "-" c))
    by (by rewrite <- Hc).
  simpl in Hl. lia.
Qed.

End names.

Section more_editing.
Context `{Collaborators}.

Implicit Types keybindings : list (IUserFriendlyKeybinding Args string).

Lemma removeEntries_absent keybindings (content eol c : string) :
  Forall (fun k => hasCommand c k = false) keybindings ->
  removeEntries keybindings content eol c = content.
Proof.
  intros HF. unfold removeEntries.
  apply (foldl_invariant (fun s => s = content)); [reflexivity|].
  intros s index ->. destruct (keybindings !! index) as [k|] eqn:E; [|done].
  by rewrite (proj1 (Forall_lookup _ _) HF index k E).
Qed.

Lemma recordsOf_app (c : string)
    (l1 l2 : list (IUserFriendlyKeybinding Args string)) :
  recordsOf c (l1 ++ l2) = recordsOf c l1 ++ recordsOf c l2.
Proof. apply List.filter_app. Qed.

Lemma recordsOf_recordsOf (c c' : string) keybindings :
  recordsOf c' (recordsOf c keybindings)
  = if decide (c' = c) then recordsOf c keybindings else [].
Proof.
  unfold recordsOf. induction keybindings as [|k l IH]; simpl.
  - by destruct (decide (c' = c)).
  - destruct (String.eqb_spec (command_name (command k)) c) as [E|E]; simpl.
    + rewrite IH. destruct (decide (c' = c)) as [->|Hne].
      * by rewrite E, String.eqb_refl.
      * destruct (String.eqb_spec (command_name (command k)) c');
          [congruence | done].
    + apply IH.
Qed.

Lemma recordsOf_without (c c' : string) keybindings :
  is_negated c = false ->
  recordsOf c' (List.filter (fun k => negb (hasCommand c k)) keybindings)
  = if decide (c' = c) then [] else recordsOf c' keybindings.
Proof.
  intros Hc. unfold recordsOf. induction keybindings as [|k l IH]; simpl.
  - by destruct (decide (c' = c)).
  - rewrite (hasCommand_plain c k Hc).
    destruct (String.eqb_spec (command_name (command k)) c) as [E|E]; simpl.
    + rewrite IH. destruct (decide (c' = c)) as [->|Hne]; [done|].
      destruct (String.eqb_spec (command_name (command k)) c');
        [congruence | done].
    + rewrite IH. destruct (decide (c' = c)) as [->|Hne].
      * by destruct (String.eqb_spec (command_name (command k)) c).
      * reflexivity.
Qed.

Lemma recordsOf_none (c : string) keybindings :
  Forall (fun k => hasCommand c k = false) keybindings ->
  is_negated c = false ->
  recordsOf c keybindings = [].
Proof.
  intros HF Hc. unfold recordsOf.
  induction HF as [|k l Hk _ IH]; simpl; [reflexivity|].
  rewrite (hasCommand_plain c k Hc) in Hk. by rewrite Hk.
Qed.

(** The append contract. *)
Hypothesis appends : appendContract.

Lemma addKeybindings_parse (content eol : string) keybindings :
  parse (addKeybindings content eol keybindings)
  = parse content ++ keybindings.
Proof.
  unfold addKeybindings. revert content.
  induction keybindings as [|k l IH]; intros content; simpl.
  - by rewrite app_nil_r.
  - rewrite IH, appends, <- app_assoc. reflexivity.
Qed.

Lemma appendEntries_parse_from (eol : string) keybindings :
  forall (suf pre : list (IUserFriendlyKeybinding Args string))
         (content : string),
    keybindings = pre ++ suf ->
    parse (foldr (fun index content =>
                    match keybindings !! index with
                    | Some keybinding =>
                        edit content eol [(-1)%Z] (Some keybinding)
                    | None => content
                    end) content (seq (length pre) (length suf)))
    = parse content ++ rev suf.
Proof.
  induction suf as [|x suf IH]; intros pre content Hall; simpl.
  - by rewrite app_nil_r.
  - specialize (IH (pre ++ [x]) content).
    rewrite length_app, <- app_assoc in IH. simpl in IH.
    replace (length pre + 1) with (S (length pre)) in IH by lia.
    specialize (IH Hall).
    assert (Hx : keybindings !! length pre = Some x)
      by (rewrite Hall; by apply list_lookup_middle).
    rewrite Hx, appends, IH, <- app_assoc. reflexivity.
Qed.

(** X9. [addKeybindings] appends the records to the document in their
    order, when the editor appends at the index -1. *)
Theorem addKeybindings_appends (content eol : string) keybindings :
  parse (addKeybindings content eol keybindings)
  = parse content ++ keybindings
  /\ length (parse (addKeybindings content eol keybindings))
     = length (parse content) + length keybindings.
Proof.
  rewrite addKeybindings_parse, length_app. done.
Qed.

(** X10. When the document holds no record of the command,
    [updateKeybindings] finds the location -1, removes nothing and
    appends the given records in reverse order. *)
Theorem updateKeybindings_absent (content eol c : string) keybindings :
  Forall (fun k => hasCommand c k = false) (parse content) ->
  findFirstIndex (parse content) (hasCommand c) = (-1)%Z
  /\ parse (updateKeybindings content eol c keybindings)
     = parse content ++ rev keybindings.
Proof.
  intros HF.
  assert (Hloc : findFirstIndex (parse content) (hasCommand c) = (-1)%Z)
    by (by apply findFirstIndexFrom_none).
  split; [done|].
  unfold updateKeybindings. cbv zeta.
  rewrite Hloc, removeEntries_absent by done.
  unfold downFrom. rewrite foldl_rev.
  apply (appendEntries_parse_from eol keybindings keybindings [] content).
  reflexivity.
Qed.

End more_editing.

(** ** The merged document, command by command *)

Section command_loop.
Context `{Collaborators}.

Abbreviation records := (list (IUserFriendlyKeybinding Args string)).

(** One loop of the output assembly, abstractly: a command in conflict is
    skipped, an escalated command joins the conflict set, and the text is
    edited for the others. The edit of a command [k] replaces the records
    of [k] by [newGroup k] of the old ones and leaves the records of the
    other commands as they are, provided [pre k] holds of the old ones. *)
Variable step : string * list string -> string -> string * list string.
Variable esc : string -> bool.
Variable op : string -> string -> string.
Variable pre : string -> records -> Prop.
Variable newGroup : string -> records -> records.

Hypothesis step_eq :
  forall content cs k,
    step (content, cs) k
    = if set_has cs k then (content, cs)
      else if esc k then (content, set_add k cs)
      else (op content k, cs).

Hypothesis op_groups :
  forall content k,
    pre k (recordsOf k (parse content)) ->
    forall c,
      recordsOf c (parse (op content k))
      = if decide (c = k) then newGroup k (recordsOf k (parse content))
        else recordsOf c (parse content).

Lemma command_loop_groups (l : list string) :
  NoDup l ->
  forall (content : string) (cs : list string),
    (forall k, k ∈ l -> k ∉ cs -> pre k (recordsOf k (parse content))) ->
    let st := foldl step (content, cs) l in
    (forall c, c ∈ cs -> c ∈ st.2)
    /\ (forall c, c ∈ st.2 -> c ∈ cs \/ c ∈ l)
    /\ (forall c,
          recordsOf c (parse st.1)
          = if decide (c ∈ l /\ (c ∉ st.2))
            then newGroup c (recordsOf c (parse content))
            else recordsOf c (parse content)).
Proof.
  induction 1 as [|k l Hk Hl IH]; intros content cs Hpre; cbv zeta;
    cbn [foldl fst snd].
  - split; [done | split; [by left|]].
    intros c. case_decide as Hc; [|done]. destruct Hc as [Hc _].
    inversion Hc.
  - rewrite step_eq. destruct (set_has cs k) eqn:Ecs;
      [apply set_has_true in Ecs | apply set_has_false in Ecs;
       destruct (esc k) eqn:Ee].
    + destruct (IH content cs) as (Hmono & Hbound & HG).
      { intros k' Hk' Hcs. apply Hpre; [by right | done]. }
      split; [done | split].
      * intros c Hc. apply Hbound in Hc as [?|?]; [by left|].
        right. by right.
      * intros c. rewrite HG. specialize (Hmono k Ecs).
        clear -Hmono Hk. repeat case_decide; try done; exfalso;
          rewrite elem_of_cons in *; intuition (subst; auto).
    + destruct (IH content (set_add k cs)) as (Hmono & Hbound & HG).
      { intros k' Hk' Hcs. apply Hpre; [by right|].
        intros Hin. apply Hcs. by apply set_add_mono. }
      split; [|split].
      * intros c Hc. by apply Hmono, set_add_mono.
      * intros c Hc. apply Hbound in Hc as [Hc|?]; [|right; by right].
        apply elem_of_set_add in Hc as [->|?]; [right; left | by left].
      * intros c. rewrite HG.
        assert (Hks : k ∈ (foldl step (content, set_add k cs) l).2)
          by (apply Hmono, elem_of_set_add; auto).
        clear -Hks Hk. repeat case_decide; try done; exfalso;
          rewrite elem_of_cons in *; intuition (subst; auto).
    + assert (Hop := op_groups content k (Hpre k ltac:(left) Ecs)).
      destruct (IH (op content k) cs) as (Hmono & Hbound & HG).
      { intros k' Hk' Hcs. rewrite Hop.
        destruct (decide (k' = k)) as [->|_]; [done|].
        apply Hpre; [by right | done]. }
      split; [done | split].
      * intros c Hc. apply Hbound in Hc as [?|?]; [by left|].
        right. by right.
      * intros c. rewrite HG, !Hop.
        assert (Hks : k ∉ (foldl step (op content k, cs) l).2).
        { intros Hin. apply Hbound in Hin as [?|?]; done. }
        destruct (decide (c = k)) as [->|Hne].
        -- rewrite decide_False by tauto.
           rewrite decide_True; [done|]. split; [left | done].
        -- clear -Hne. repeat case_decide; try done; exfalso;
             rewrite elem_of_cons in *; intuition (subst; auto).
Qed.

End command_loop.

Lemma elem_of_keys_byCommand `{Collaborators}
    (keybindings : list (IUserFriendlyKeybinding Args string)) (c : string) :
  c ∈ map_keys (byCommand keybindings)
  <-> exists keybinding,
        keybinding ∈ keybindings
        /\ command_name (command keybinding) = c.
Proof.
  unfold byCommand. rewrite map_keys_foldl_group_push. simpl.
  fold (to_set (map (fun r : IUserFriendlyKeybinding Args string =>
                       command_name (command r)) keybindings)).
  rewrite elem_of_to_set.
  split.
  - intros Hin. apply list_elem_of_fmap in Hin as (k & -> & Hk). eauto.
  - intros (k & Hk & <-).
    by apply (list_elem_of_fmap_2
                (fun r : IUserFriendlyKeybinding Args string =>
                   command_name (command r))).
Qed.

Lemma recordsOf_nil_iff `{Collaborators}
    (keybindings : list (IUserFriendlyKeybinding Args string)) (c : string) :
  recordsOf c keybindings = [] <-> c ∉ map_keys (byCommand keybindings).
Proof.
  rewrite elem_of_keys_byCommand, nil_iff_no_elem. unfold recordsOf. split.
  - intros Hno (k & Hk & E). apply (Hno k), elem_of_filter_bool.
    split; [done|]. by apply String.eqb_eq.
  - intros Hno k Hk. apply elem_of_filter_bool in Hk as [Hk E].
    apply String.eqb_eq in E. eauto.
Qed.

Lemma keys_byCommand_plain `{Collaborators}
    (keybindings : list (IUserFriendlyKeybinding Args string)) (c : string) :
  plainNames keybindings -> c ∈ map_keys (byCommand keybindings) ->
  is_negated c = false.
Proof.
  intros Hp Hc. apply elem_of_keys_byCommand in Hc as (k & Hk & <-).
  by apply (proj1 (Forall_forall _ _) Hp).
Qed.

Section assembly_groups.
Context `{Collaborators}.

Implicit Types normalizedKeys : gmap string string.
Implicit Types local remote keybindings :
  list (IUserFriendlyKeybinding Args string).
Implicit Types base : option (list (IUserFriendlyKeybinding Args string)).

Hypothesis contract : editorContract.
Hypothesis appends : appendContract.

Lemma remove_groups (content eol c : string) :
  is_negated c = false ->
  forall c',
    recordsOf c' (parse (removeKeybindings content eol c))
    = if decide (c' = c) then [] else recordsOf c' (parse content).
Proof.
  intros Hc c'. unfold removeKeybindings.
  rewrite (removeEntries_parse contract). by apply recordsOf_without.
Qed.

Lemma update_groups (content eol c : string) keybindings :
  is_negated c = false ->
  recordsOf c (parse content) <> [] ->
  recordsOf c keybindings = keybindings ->
  forall c',
    recordsOf c' (parse (updateKeybindings content eol c keybindings))
    = if decide (c' = c) then keybindings else recordsOf c' (parse content).
Proof.
  intros Hc Hne Hk c'.
  assert (Hloc : exists loc,
             findFirstIndex (parse content) (hasCommand c) = Z.of_nat loc).
  { destruct (recordsOf c (parse content)) as [|x g] eqn:E; [done|].
    assert (Hx : x ∈ recordsOf c (parse content)) by (rewrite E; left).
    apply elem_of_filter_bool in Hx as [Hx Hn].
    apply (findFirstIndexFrom_some _ _ 0 x Hx).
    by rewrite hasCommand_plain. }
  destruct Hloc as [loc Hloc].
  destruct (updateKeybindings_parse contract content eol c keybindings loc
              Hloc) as [-> Hno].
  rewrite !recordsOf_app, recordsOf_without by done.
  rewrite <- Hk, recordsOf_recordsOf, Hk.
  destruct (decide (c' = c)) as [->|Hne'].
  - rewrite (recordsOf_none c _ Hno Hc). by rewrite app_nil_r.
  - simpl. rewrite <- recordsOf_app, take_drop. reflexivity.
Qed.

Lemma add_groups (content eol : string) keybindings (c' : string) :
  recordsOf c' (parse (addKeybindings content eol keybindings))
  = recordsOf c' (parse content) ++ recordsOf c' keybindings.
Proof. by rewrite (addKeybindings_parse appends), recordsOf_app. Qed.

(** X11. Under the contract of the editor, [removeKeybindings] leaves
    exactly the records of the other commands, in their order; when the
    document holds no record of the command the text is returned as it
    is. *)
Theorem removeKeybindings_spec (content eol c : string) :
  parse (removeKeybindings content eol c)
  = List.filter (fun k => negb (hasCommand c k)) (parse content)
  /\ Forall (fun k => hasCommand c k = false)
       (parse (removeKeybindings content eol c))
  /\ (Forall (fun k => hasCommand c k = false) (parse content) ->
      removeKeybindings content eol c = content).
Proof.
  unfold removeKeybindings. rewrite (removeEntries_parse contract).
  repeat split.
  - apply Forall_forall. intros k Hk.
    apply elem_of_filter_bool in Hk as [_ Hk]. by apply negb_true_iff.
  - apply removeEntries_absent.
Qed.

(** X12. Edits by command, seen through the grouping by command, for a
    command name without a leading dash: removing a command empties its
    group, updating a command that the document holds replaces its group
    by the given records of that command, adding records extends their
    groups at the end; the groups of all other commands stay as they
    were. *)
Theorem edits_by_group (content eol c : string) keybindings :
  is_negated c = false ->
  (forall c',
      recordsOf c' (parse (removeKeybindings content eol c))
      = if decide (c' = c) then [] else recordsOf c' (parse content))
  /\ (recordsOf c (parse content) <> [] ->
      recordsOf c keybindings = keybindings ->
      forall c',
        recordsOf c' (parse (updateKeybindings content eol c keybindings))
        = if decide (c' = c) then keybindings
          else recordsOf c' (parse content))
  /\ (forall c',
        recordsOf c' (parse (addKeybindings content eol keybindings))
        = recordsOf c' (parse content) ++ recordsOf c' keybindings).
Proof.
  intros Hc. split; [|split].
  - by apply remove_groups.
  - intros Hne Hk. by apply update_groups.
  - apply add_groups.
Qed.

End assembly_groups.

Lemma computeMergeResult_NoDup {K : Type} `{EqDecision K}
    (localToRemote baseToLocal baseToRemote : ICompareResult K) :
  let r := computeMergeResult localToRemote baseToLocal baseToRemote in
  NoDup (ms_added r) /\ NoDup (ms_removed r) /\ NoDup (ms_updated r).
Proof.
  unfold computeMergeResult.
  set (c1 := foldl _ [] (removed baseToLocal)).
  destruct (foldl _ ([], c1) (removed baseToRemote)) as [removed' c2] eqn:E2.
  set (c3 := foldl _ c2 (added baseToLocal)).
  destruct (foldl _ ([], c3) (added baseToRemote)) as [added' c4] eqn:E4.
  set (c5 := foldl _ c4 (updated baseToLocal)).
  destruct (foldl _ ([], c5) (updated baseToRemote)) as [updated' c6] eqn:E6.
  simpl.
  assert (Hstep : forall (f : list K * list K -> K -> list K * list K)
                         (s : list K * list K) (l : list K) r c,
             foldl f s l = (r, c) -> NoDup s.1 ->
             (forall st a, NoDup st.1 -> NoDup (f st a).1) -> NoDup r).
  { intros f s l r c E Hs Hf.
    pose proof (foldl_invariant (fun st => NoDup st.1) f l s Hs Hf) as Hn.
    by rewrite E in Hn. }
  split; [|split].
  - eapply Hstep; [exact E4 | constructor|].
    intros [r c] a Hr. loop_round; try done. by apply NoDup_set_add.
  - eapply Hstep; [exact E2 | constructor|].
    intros [r c] a Hr. loop_round; try done. by apply NoDup_set_add.
  - eapply Hstep; [exact E6 | constructor|].
    intros [r c] a Hr. loop_round; try done. by apply NoDup_set_add.
Qed.

Section merged_document.
Context `{Collaborators}.

Implicit Types normalizedKeys : gmap string string.
Implicit Types local remote keybindings :
  list (IUserFriendlyKeybinding Args string).
Implicit Types base : option (list (IUserFriendlyKeybinding Args string)).

Hypothesis contract : editorContract.
Hypothesis appends : appendContract.

Lemma removed_loop_groups (cs0 : list string) (eol : string)
    (l : list string) :
  Forall (fun c => is_negated c = false) l ->
  forall (content c : string),
    recordsOf c (parse (foldl (removedStep cs0 eol) content l))
    = if decide (c ∈ l /\ (c ∉ cs0)) then []
      else recordsOf c (parse content).
Proof.
  induction 1 as [|k l Hk _ IH]; intros content c; cbn [foldl].
  - case_decide as Hc; [|done]. destruct Hc as [Hc _]. inversion Hc.
  - rewrite IH. unfold removedStep.
    destruct (set_has cs0 k) eqn:Ecs;
      [apply set_has_true in Ecs | apply set_has_false in Ecs].
    + clear -Ecs. repeat case_decide; try done; exfalso;
        rewrite elem_of_cons in *; intuition (subst; auto).
    + rewrite (remove_groups contract content eol k Hk).
      destruct (decide (c = k)) as [->|Hne].
      * rewrite (decide_True (P := k ∈ k :: l /\ (k ∉ cs0)));
          [by case_decide | split; [left | done]].
      * clear -Hne. repeat case_decide; try done; exfalso;
          rewrite elem_of_cons in *; intuition (subst; auto).
Qed.

Lemma added_loop_groups (bindingConflicts : list (option string))
    normalizedKeys remote (eol : string) (l : list string) :
  NoDup l ->
  forall (content : string) (cs : list string),
    let st := foldl (addedStep bindingConflicts normalizedKeys
                       (byCommand remote) eol) (content, cs) l in
    (forall c, c ∈ cs -> c ∈ st.2)
    /\ (forall c, c ∈ st.2 -> c ∈ cs \/ c ∈ l)
    /\ (forall c,
          recordsOf c (parse st.1)
          = if decide (c ∈ l /\ (c ∉ st.2))
            then recordsOf c (parse content) ++ recordsOf c remote
            else recordsOf c (parse content)).
Proof.
  intros Hl content cs.
  apply (command_loop_groups
           (addedStep bindingConflicts normalizedKeys (byCommand remote) eol)
           (fun k => escalates bindingConflicts normalizedKeys k
                       (get_group (byCommand remote) k))
           (fun content k =>
              addKeybindings content eol (get_group (byCommand remote) k))
           (fun _ _ => True)
           (fun c g => g ++ recordsOf c remote)); [| |done|done].
  - intros. reflexivity.
  - intros content' k _ c.
    rewrite (add_groups appends), get_group_byCommand.
    fold (recordsOf k remote). rewrite recordsOf_recordsOf.
    destruct (decide (c = k)) as [->|_]; [done | by rewrite app_nil_r].
Qed.

Lemma updated_loop_groups (bindingConflicts : list (option string))
    normalizedKeys remote (eol : string) (l : list string) :
  NoDup l ->
  forall (content : string) (cs : list string),
    (forall k, k ∈ l -> k ∉ cs ->
               is_negated k = false /\ recordsOf k (parse content) <> []) ->
    let st := foldl (updatedStep bindingConflicts normalizedKeys
                       (byCommand remote) eol) (content, cs) l in
    (forall c, c ∈ cs -> c ∈ st.2)
    /\ (forall c, c ∈ st.2 -> c ∈ cs \/ c ∈ l)
    /\ (forall c,
          recordsOf c (parse st.1)
          = if decide (c ∈ l /\ (c ∉ st.2))
            then recordsOf c remote
            else recordsOf c (parse content)).
Proof.
  intros Hl content cs Hpre.
  apply (command_loop_groups
           (updatedStep bindingConflicts normalizedKeys (byCommand remote)
              eol)
           (fun k => escalates bindingConflicts normalizedKeys k
                       (get_group (byCommand remote) k))
           (fun content k =>
              updateKeybindings content eol k
                (get_group (byCommand remote) k))
           (fun k g => is_negated k = false /\ g <> [])
           (fun c g => recordsOf c remote)); [| |done|done].
  - intros. reflexivity.
  - intros content' k [Hk Hne] c.
    rewrite get_group_byCommand. fold (recordsOf k remote).
    apply (update_groups contract); [done | done|].
    rewrite recordsOf_recordsOf. by rewrite decide_True.
Qed.

(** What the resolution by command says of one command, for the sets
    that [merge] computes. *)
Lemma command_sets_facts local remote base normalizedKeys (c : string) :
  let r := commandsMergeResult local remote base normalizedKeys in
  (c ∈ ms_removed r ->
   (c ∉ ms_conflicts r) /\ (c ∉ ms_added r) /\ (c ∉ ms_updated r)
   /\ recordsOf c remote = []
   /\ exists b, base = Some b /\ c ∈ map_keys (byCommand b))
  /\ (c ∈ ms_added r ->
      (c ∉ ms_conflicts r) /\ (c ∉ ms_updated r)
      /\ recordsOf c local = [])
  /\ (c ∈ ms_updated r ->
      (c ∉ ms_conflicts r) /\ recordsOf c local <> []
      /\ exists b, base = Some b /\ c ∈ map_keys (byCommand b)).
Proof.
  intros r. subst r. rewrite commandsMergeResult_eq.
  pose proof (computeMergeResult_char
                (compareByCommand (byCommand local) (byCommand remote)
                   normalizedKeys)
                (baseToSideByCommand base local normalizedKeys)
                (baseToSideByCommand base remote normalizedKeys) c) as Hc.
  cbv zeta in Hc. destruct Hc as (Hc & Hr & Ha & Hu).
  rewrite Hc, Hr, Ha, Hu. clear Hc Hr Ha Hu.
  rewrite !recordsOf_nil_iff.
  destruct base as [b|]; unfold baseToSideByCommand; cbv zeta.
  - pose proof (elem_of_missing (map_keys (byCommand remote))
                  (map_keys (byCommand b)) c) as Har.
    pose proof (elem_of_missing (map_keys (byCommand b))
                  (map_keys (byCommand remote)) c) as Hrr.
    pose proof (elem_of_missing (map_keys (byCommand local))
                  (map_keys (byCommand b)) c) as Hal.
    pose proof (elem_of_missing (map_keys (byCommand b))
                  (map_keys (byCommand local)) c) as Hrl.
    pose proof (updated_compareByCommand (byCommand b) (byCommand remote)
                  normalizedKeys c) as Hur.
    pose proof (updated_compareByCommand (byCommand b) (byCommand local)
                  normalizedKeys c) as Hul.
    change (c ∈ added (compareByCommand (byCommand b) (byCommand remote)
                         normalizedKeys)
            <-> c ∈ map_keys (byCommand remote)
                /\ (c ∉ map_keys (byCommand b))) in Har.
    change (c ∈ removed (compareByCommand (byCommand b) (byCommand remote)
                           normalizedKeys)
            <-> c ∈ map_keys (byCommand b)
                /\ (c ∉ map_keys (byCommand remote))) in Hrr.
    change (c ∈ added (compareByCommand (byCommand b) (byCommand local)
                         normalizedKeys)
            <-> c ∈ map_keys (byCommand local)
                /\ (c ∉ map_keys (byCommand b))) in Hal.
    change (c ∈ removed (compareByCommand (byCommand b) (byCommand local)
                           normalizedKeys)
            <-> c ∈ map_keys (byCommand b)
                /\ (c ∉ map_keys (byCommand local))) in Hrl.
    rewrite Har, Hrr, Hal, Hrl.
    assert (Hur' : c ∈ updated (compareByCommand (byCommand b)
                                  (byCommand remote) normalizedKeys)
                   -> c ∈ map_keys (byCommand b)
                      /\ c ∈ map_keys (byCommand remote)) by tauto.
    assert (Hul' : c ∈ updated (compareByCommand (byCommand b)
                                  (byCommand local) normalizedKeys)
                   -> c ∈ map_keys (byCommand b)
                      /\ c ∈ map_keys (byCommand local)) by tauto.
    clear Har Hrr Hal Hrl Hur Hul.
    destruct (decide (c ∈ map_keys (byCommand local))),
      (decide (c ∈ map_keys (byCommand remote))),
      (decide (c ∈ map_keys (byCommand b)));
      (split; [|split]); intros (? & ? & ?);
      repeat split; try tauto; eauto.
  - unfold allAdded. cbn [added removed updated].
    rewrite !elem_of_to_set, !elem_of_nil.
    destruct (decide (c ∈ map_keys (byCommand local)));
      (split; [|split]); intros (? & ? & ?);
      repeat split; tauto.
Qed.

Lemma assemble_groups (bindingConflicts : list (option string))
    normalizedKeys (localContent : string) remote base :
  let local := parse localContent in
  let r := commandsMergeResult local remote base normalizedKeys in
  let st := assemble bindingConflicts normalizedKeys remote r localContent in
  (forall b, base = Some b -> plainNames b) ->
  forall c,
    recordsOf c (parse st.1)
    = if decide (c ∈ st.2) then recordsOf c local
      else if decide (c ∈ ms_removed r \/ c ∈ ms_added r \/ c ∈ ms_updated r)
           then recordsOf c remote
           else recordsOf c local.
Proof.
  intros local r st Hplain c. subst st. unfold assemble. cbv zeta.
  set (eol := getEol localContent).
  set (content1 := foldl (removedStep (ms_conflicts r) eol) localContent
                     (ms_removed r)).
  pose proof (fun c' => proj1 (command_sets_facts local remote base
                                 normalizedKeys c')) as Frem.
  pose proof (fun c' => proj1 (proj2 (command_sets_facts local remote base
                                        normalizedKeys c'))) as Fadd.
  pose proof (fun c' => proj2 (proj2 (command_sets_facts local remote base
                                        normalizedKeys c'))) as Fupd.
  cbv zeta in Frem, Fadd, Fupd. fold r in Frem, Fadd, Fupd.
  destruct (computeMergeResult_NoDup
              (compareByCommand (byCommand local) (byCommand remote)
                 normalizedKeys)
              (baseToSideByCommand base local normalizedKeys)
              (baseToSideByCommand base remote normalizedKeys))
    as (Nadd & _ & Nupd).
  rewrite <- commandsMergeResult_eq in Nadd, Nupd. fold r in Nadd, Nupd.
  assert (HG1 : forall c',
             recordsOf c' (parse content1)
             = if decide (c' ∈ ms_removed r /\ (c' ∉ ms_conflicts r))
               then [] else recordsOf c' local).
  { intros c'. apply removed_loop_groups. apply Forall_forall.
    intros k Hk. destruct (Frem k Hk) as (_ & _ & _ & _ & b & Hb & Hkb).
    by apply (keys_byCommand_plain b); [apply Hplain|]. }
  destruct (added_loop_groups bindingConflicts normalizedKeys remote eol
              (ms_added r) Nadd content1 (ms_conflicts r))
    as (Hmono2 & Hbound2 & HG2).
  destruct (foldl (addedStep bindingConflicts normalizedKeys
                     (byCommand remote) eol) (content1, ms_conflicts r)
              (ms_added r)) as [content2 cs2] eqn:E2.
  cbn [fst snd] in Hmono2, Hbound2, HG2.
  destruct (updated_loop_groups bindingConflicts normalizedKeys remote eol
              (ms_updated r) Nupd content2 cs2)
    as (Hmono3 & Hbound3 & HG3).
  { intros k Hk Hcs. destruct (Fupd k Hk) as (Hnc & Hne & b & Hb & Hkb).
    split; [by apply (keys_byCommand_plain b); [apply Hplain|]|].
    rewrite HG2, HG1.
    rewrite (decide_False (P := k ∈ ms_added r /\ (k ∉ cs2))).
    - rewrite decide_False; [done|].
      intros [Hr _]. destruct (Frem k Hr) as (_ & _ & ? & _). done.
    - intros [Ha _]. destruct (Fadd k Ha) as (_ & ? & _). done. }
  rewrite HG3, HG2, HG1.
  specialize (Frem c). specialize (Fadd c). specialize (Fupd c).
  specialize (Hmono2 c). specialize (Hbound2 c).
  specialize (Hmono3 c). specialize (Hbound3 c).
  set (cs3 := (foldl (updatedStep bindingConflicts normalizedKeys
                        (byCommand remote) eol) (content2, cs2)
                 (ms_updated r)).2) in *.
  clearbody cs3. clear HG1 HG2 HG3 E2 Nadd Nupd Hplain.
  destruct (decide (c ∈ ms_removed r)) as [Hr|Hr].
  - destruct (Frem Hr) as (Hnc & Hna & Hnu & HR & _). rewrite HR.
    repeat case_decide; try done; exfalso; tauto.
  - destruct (decide (c ∈ ms_added r)) as [Ha|Ha].
    + destruct (Fadd Ha) as (Hnc & Hnu & HL). rewrite HL.
      repeat case_decide; try done; exfalso; tauto.
    + destruct (decide (c ∈ ms_updated r)) as [Hu|Hu].
      * destruct (Fupd Hu) as (Hnc & _).
        repeat case_decide; try done; exfalso; tauto.
      * repeat case_decide; try done; exfalso; tauto.
Qed.

(** X13. The text that the output assembly produces, command by command,
    under the contracts of the editor and for a base without doubly
    negated commands. A command that ends in the conflict set keeps its
    local records. Every other command that the resolution removed,
    added or updated holds the records that it has in the remote, in the
    order of the remote; the remaining commands keep their local
    records. *)
Theorem assemble_by_command (bindingConflicts : list (option string))
    normalizedKeys (localContent : string) remote base :
  let local := parse localContent in
  let r := commandsMergeResult local remote base normalizedKeys in
  let st := assemble bindingConflicts normalizedKeys remote r localContent in
  (forall b, base = Some b -> plainNames b) ->
  forall c,
    (c ∈ st.2 -> recordsOf c (parse st.1) = recordsOf c local)
    /\ (c ∉ st.2 ->
        c ∈ ms_removed r \/ c ∈ ms_added r \/ c ∈ ms_updated r ->
        recordsOf c (parse st.1) = recordsOf c remote)
    /\ (c ∉ st.2 ->
        ~ (c ∈ ms_removed r \/ c ∈ ms_added r \/ c ∈ ms_updated r) ->
        recordsOf c (parse st.1) = recordsOf c local).
Proof.
  intros local r st Hplain c.
  pose proof (assemble_groups bindingConflicts normalizedKeys localContent
                remote base Hplain c) as HG.
  cbv zeta in HG. fold local r st in HG. rewrite HG. clear HG.
  split; [|split]; intros; repeat case_decide; done.
Qed.

(** X14. When both sides have moved forward and [merge] ends without
    conflict, the merged text holds, for every command that the
    resolution removed, added or updated, the records of the remote, and
    for every other command the records of the local. *)
Theorem merge_by_command (localContent remoteContent : string)
    (baseContent : option string) normalizedKeys :
  let local := parse localContent in
  let remote := parse remoteContent in
  let base := parseBase baseContent in
  let keybindingsMergeResult :=
    computeMergeResultByKeybinding local remote base normalizedKeys in
  let r := commandsMergeResult local remote base normalizedKeys in
  let out := merge localContent remoteContent baseContent normalizedKeys in
  (forall b, base = Some b -> plainNames b) ->
  hasLocalForwarded keybindingsMergeResult = true ->
  hasRemoteForwarded keybindingsMergeResult = true ->
  hasConflicts out = false ->
  forall c,
    recordsOf c (parse (mergeContent out))
    = if decide (c ∈ ms_removed r \/ c ∈ ms_added r \/ c ∈ ms_updated r)
      then recordsOf c remote else recordsOf c local.
Proof.
  intros local remote base kmr r out Hplain Hl Hr Hc c. subst out.
  rewrite merge_eq in *. cbv zeta in *.
  fold local remote base kmr r in Hc |- *. rewrite Hl, Hr in *.
  pose proof (assemble_groups (conflicts kmr) normalizedKeys localContent
                remote base Hplain c) as HG.
  cbv zeta in HG. fold local r in HG.
  destruct (assemble (conflicts kmr) normalizedKeys remote r localContent)
    as [content cs]. cbn [fst snd] in *.
  destruct cs as [|x cs]; simpl in Hc; [|discriminate]. simpl.
  rewrite HG. rewrite decide_False; [done|]. intros Hin. inversion Hin.
Qed.

End merged_document.

(** ** The final conflict set *)

Lemma command_loop_conflicts
    (step : string * list string -> string -> string * list string)
    (esc : string -> bool) (op : string -> string -> string) :
  (forall content cs k,
      step (content, cs) k
      = if set_has cs k then (content, cs)
        else if esc k then (content, set_add k cs)
        else (op content k, cs)) ->
  forall (l : list string) (content : string) (cs : list string) (x : string),
    x ∈ (foldl step (content, cs) l).2
    <-> x ∈ cs \/ (x ∈ l /\ esc x = true).
Proof.
  intros Hstep l. induction l as [|k l IH]; intros content cs x;
    cbn [foldl snd].
  - rewrite elem_of_nil. tauto.
  - rewrite Hstep. destruct (set_has cs k) eqn:Ecs;
      [apply set_has_true in Ecs | apply set_has_false in Ecs;
       destruct (esc k) eqn:Ee];
      rewrite IH, elem_of_cons, ?elem_of_set_add;
      intuition (subst; auto; congruence).
Qed.

Lemma escalates_nil `{Collaborators} (normalizedKeys : gmap string string)
    (c : string) (keybindings : list (IUserFriendlyKeybinding Args string)) :
  escalates [] normalizedKeys c keybindings = false.
Proof.
  unfold escalates. induction keybindings as [|k l IH]; simpl; [done|].
  rewrite IH. by rewrite andb_false_r.
Qed.

Section final_conflicts.
Context `{Collaborators}.

(** X15. The command-level conflict set at the end of the output
    assembly holds the conflicts of the resolution and the added and
    updated commands that the guard escalates, and nothing else; with an
    empty binding-level conflict set it is the conflict set of the
    resolution. *)
Theorem assemble_conflicts (bindingConflicts : list (option string))
    (normalizedKeys : gmap string string)
    (remote : list (IUserFriendlyKeybinding Args string))
    (r : IMergeSets string) (localContent : string) (c : string) :
  let st := assemble bindingConflicts normalizedKeys remote r localContent in
  (c ∈ st.2
   <-> c ∈ ms_conflicts r
       \/ ((c ∈ ms_added r \/ c ∈ ms_updated r)
          /\ escalates bindingConflicts normalizedKeys c
               (get_group (byCommand remote) c) = true))
  /\ (bindingConflicts = [] -> st.2 = ms_conflicts r).
Proof.
  intros st. subst st. unfold assemble. cbv zeta. split.
  - destruct (foldl (addedStep _ _ _ _) _ (ms_added r)) as [content2 cs2]
      eqn:E2.
    rewrite (command_loop_conflicts
               (updatedStep bindingConflicts normalizedKeys
                  (byCommand remote) (getEol localContent))
               (fun k => escalates bindingConflicts normalizedKeys k
                           (get_group (byCommand remote) k))
               (fun content k =>
                  updateKeybindings content (getEol localContent) k
                    (get_group (byCommand remote) k))
               ltac:(intros; reflexivity)).
    assert (Hcs2 : c ∈ cs2
                   <-> c ∈ ms_conflicts r
                       \/ (c ∈ ms_added r
                          /\ escalates bindingConflicts normalizedKeys c
                               (get_group (byCommand remote) c) = true)).
    { change cs2 with (content2, cs2).2. rewrite <- E2.
      apply (command_loop_conflicts
               (addedStep bindingConflicts normalizedKeys
                  (byCommand remote) (getEol localContent))
               (fun k => escalates bindingConflicts normalizedKeys k
                           (get_group (byCommand remote) k))
               (fun content k =>
                  addKeybindings content (getEol localContent)
                    (get_group (byCommand remote) k))).
      intros. reflexivity. }
    rewrite Hcs2. clear. tauto.
  - intros ->.
    apply (foldl_invariant
             (fun st : string * list string => st.2 = ms_conflicts r)).
    + apply (foldl_invariant
               (fun st : string * list string => st.2 = ms_conflicts r));
        [done|].
      intros [content cs] k Hcs. unfold addedStep.
      rewrite escalates_nil. by destruct (set_has cs k).
    + intros [content cs] k Hcs. unfold updatedStep.
      rewrite escalates_nil. by destruct (set_has cs k).
Qed.

End final_conflicts.

(** ** Agreement of local and remote *)

Section agreement.
Context `{Collaborators}.

Implicit Types normalizedKeys : gmap string string.
Implicit Types local remote keybindings :
  list (IUserFriendlyKeybinding Args string).

Lemma get_group_byKeybinding keybindings normalizedKeys (k : option string) :
  get_group (byKeybinding keybindings normalizedKeys) k
  = recordsAt normalizedKeys k keybindings.
Proof.
  unfold byKeybinding.
  apply (get_group_foldl
           (fun keybinding => normalizedKeys !! key keybinding)
           keybindings [] k).
Qed.

Lemma recordsAt_nil_iff keybindings normalizedKeys (k : option string) :
  recordsAt normalizedKeys k keybindings = []
  <-> k ∉ map_keys (byKeybinding keybindings normalizedKeys).
Proof.
  unfold byKeybinding. rewrite map_keys_foldl_group_push. simpl.
  fold (to_set (map (fun r : IUserFriendlyKeybinding Args string =>
                       normalizedKeys !! key r) keybindings)).
  rewrite elem_of_to_set, nil_iff_no_elem. unfold recordsAt. split.
  - intros Hno Hin. apply list_elem_of_fmap in Hin as (x & -> & Hx).
    apply (Hno x), elem_of_filter_bool. split; [done|].
    by apply bool_decide_eq_true_2.
  - intros Hno x Hx. apply elem_of_filter_bool in Hx as [Hx E].
    apply bool_decide_eq_true in E. apply Hno. subst k.
    by apply (list_elem_of_fmap_2
                (fun r : IUserFriendlyKeybinding Args string =>
                   normalizedKeys !! key r)).
Qed.

Lemma recordsAt_nil_iff_not keybindings normalizedKeys (k : option string) :
  recordsAt normalizedKeys k keybindings <> []
  -> k ∈ map_keys (byKeybinding keybindings normalizedKeys).
Proof.
  rewrite recordsAt_nil_iff.
  destruct (decide (k ∈ map_keys (byKeybinding keybindings normalizedKeys)));
    tauto.
Qed.

Lemma noChanges_byKeybinding_iff local remote normalizedKeys :
  noChanges (compareByKeybinding (byKeybinding local normalizedKeys)
               (byKeybinding remote normalizedKeys)) = true
  <-> forall k,
        pairwiseSame (map (with_key k) (recordsAt normalizedKeys k local))
                     (map (with_key k) (recordsAt normalizedKeys k remote)).
Proof.
  set (ml := byKeybinding local normalizedKeys).
  set (mr := byKeybinding remote normalizedKeys).
  unfold noChanges. rewrite !andb_true_iff, !set_empty_true.
  rewrite !nil_iff_no_elem.
  assert (Ha : forall k, k ∈ added (compareByKeybinding ml mr)
                         <-> k ∈ map_keys mr /\ (k ∉ map_keys ml))
    by (intros k; apply elem_of_missing).
  assert (Hr : forall k, k ∈ removed (compareByKeybinding ml mr)
                         <-> k ∈ map_keys ml /\ (k ∉ map_keys mr))
    by (intros k; apply elem_of_missing).
  assert (Hsame : forall k,
             pairwiseSame (map (with_key k) (recordsAt normalizedKeys k local))
               (map (with_key k) (recordsAt normalizedKeys k remote))
             <-> equals (map (with_key k) (get_group ml k))
                        (map (with_key k) (get_group mr k))
                        isSameKeybinding = true).
  { intros k. subst ml mr. rewrite !get_group_byKeybinding.
    unfold pairwiseSame. by rewrite equals_Forall2. }
  assert (Hkl : forall k, k ∈ map_keys ml
                          <-> recordsAt normalizedKeys k local <> []).
  { intros k. rewrite recordsAt_nil_iff. fold ml.
    destruct (decide (k ∈ map_keys ml)); tauto. }
  assert (Hkr : forall k, k ∈ map_keys mr
                          <-> recordsAt normalizedKeys k remote <> []).
  { intros k. rewrite recordsAt_nil_iff. fold mr.
    destruct (decide (k ∈ map_keys mr)); tauto. }
  split.
  - intros [[Hna Hnr] Hnu] k. apply Hsame.
    specialize (Hna k). specialize (Hnr k). specialize (Hnu k).
    rewrite Ha in Hna. rewrite Hr in Hnr.
    rewrite updated_compareByKeybinding in Hnu.
    destruct (decide (k ∈ map_keys ml)) as [Hl|Hl],
      (decide (k ∈ map_keys mr)) as [Hr'|Hr']; try tauto.
    + destruct (equals _ _ _); [done | tauto].
    + unfold get_group.
      rewrite <- map_get_is_Some in Hl, Hr'.
      rewrite <- !eq_None_not_Some in Hl, Hr'. by rewrite Hl, Hr'.
  - intros Hall.
    assert (Hlen : forall k, k ∈ map_keys ml <-> k ∈ map_keys mr).
    { intros k. rewrite Hkl, Hkr. specialize (Hall k).
      unfold pairwiseSame in Hall. apply Forall2_length in Hall.
      rewrite !length_map in Hall.
      destruct (recordsAt normalizedKeys k local),
        (recordsAt normalizedKeys k remote); simpl in Hall;
        split; intros ?; (done || lia). }
    split; [split|]; intros k.
    + rewrite Ha, Hlen. tauto.
    + rewrite Hr, Hlen. tauto.
    + rewrite updated_compareByKeybinding.
      rewrite (proj1 (Hsame k) (Hall k)). intros (_ & _ & ?). done.
Qed.

(** X16. [merge] reports no change exactly when, for every canonical
    key, the records of local and remote under that key are pairwise
    equal in order, whatever the base; the output is then the local
    text. A conflict is never reported without a change. *)
Theorem merge_unchanged_iff (localContent remoteContent : string)
    (baseContent : option string) normalizedKeys :
  let out := merge localContent remoteContent baseContent normalizedKeys in
  (hasChanges out = false
   <-> forall k,
         pairwiseSame
           (map (with_key k)
              (recordsAt normalizedKeys k (parse localContent)))
           (map (with_key k)
              (recordsAt normalizedKeys k (parse remoteContent))))
  /\ (hasChanges out = false -> out = Output localContent false false)
  /\ (hasConflicts out = true -> hasChanges out = true).
Proof.
  intros out. subst out.
  rewrite <- noChanges_byKeybinding_iff.
  rewrite merge_eq. cbv zeta.
  rewrite computeMergeResultByKeybinding_eq. cbv zeta.
  destruct (noChanges (compareByKeybinding _ _)); simpl.
  - split; [tauto | split; [done | discriminate]].
  - destruct (noChanges (baseToSideByKeybinding _ (parse localContent) _));
      simpl; [split; [split | split]; discriminate|].
    destruct (noChanges (baseToSideByKeybinding _ (parse remoteContent) _));
      simpl; [split; [split | split]; discriminate|].
    destruct (set_empty _); simpl;
      (split; [split | split]); (discriminate || done).
Qed.

(** The comparators of guards and of arguments are reflexive. *)
Hypothesis expr_equals_refl : forall e : Expr, expr_equals e e = true.
Hypothesis objects_equals_refl : forall a : Args, objects_equals a a = true.

(** X17. When, for every canonical key, the records of local and remote
    under that key differ at most in the spelling of their keys, [merge]
    returns the local text unchanged: neither the spelling of a key nor
    the order of records with different keys counts as a change. *)
Theorem merge_same_by_key (localContent remoteContent : string)
    (baseContent : option string) normalizedKeys :
  (forall k,
      Forall2 (sameButSpelling normalizedKeys)
        (recordsAt normalizedKeys k (parse localContent))
        (recordsAt normalizedKeys k (parse remoteContent))) ->
  merge localContent remoteContent baseContent normalizedKeys
  = Output localContent false false.
Proof.
  intros Hall.
  assert (Hno : noChanges
                  (compareByKeybinding
                     (byKeybinding (parse localContent) normalizedKeys)
                     (byKeybinding (parse remoteContent) normalizedKeys))
                = true).
  { apply noChanges_byKeybinding_iff. intros k. unfold pairwiseSame.
    apply equals_Forall2.
    by apply (sameButSpelling_equals expr_equals_refl objects_equals_refl
                normalizedKeys). }
  rewrite merge_eq. cbv zeta.
  rewrite computeMergeResultByKeybinding_eq. cbv zeta. by rewrite Hno.
Qed.

End agreement.

(** ** Comparing in the other direction *)

Lemma equals_sym {T : Type} (f : T -> T -> bool) (l1 l2 : list T) :
  (forall a b, f a b = f b a) -> equals l1 l2 f = equals l2 l1 f.
Proof.
  intros Hf. revert l2. induction l1 as [|a l1 IH]; intros [|b l2]; simpl;
    try reflexivity.
  by rewrite Hf, IH.
Qed.

Section reversed.
Context `{Collaborators}.

(** The comparators of guards and of arguments are symmetric. *)
Hypothesis expr_equals_sym :
  forall e1 e2 : Expr, expr_equals e1 e2 = expr_equals e2 e1.
Hypothesis objects_equals_sym :
  forall a1 a2 : Args, objects_equals a1 a2 = objects_equals a2 a1.

Lemma isSameKeybinding_sym {K : Type} `{EqDecision K}
    (a b : IUserFriendlyKeybinding Args K) :
  isSameKeybinding a b = isSameKeybinding b a.
Proof.
  unfold isSameKeybinding.
  rewrite (String.eqb_sym (command b)).
  destruct (String.eqb (command a) (command b)); simpl; [|reflexivity].
  rewrite (bool_decide_ext (key a = key b) (key b = key a)) by done.
  destruct (bool_decide (key b = key a)); simpl; [|reflexivity].
  rewrite (objects_equals_sym (args b)).
  destruct (deserialize (when a)) as [ea|], (deserialize (when b)) as [eb|];
    simpl; try reflexivity.
  by rewrite (expr_equals_sym eb).
Qed.

Lemma areSameKeybindingsWithSameCommand_sym {K : Type} `{EqDecision K}
    (value1 value2 : list (IUserFriendlyKeybinding Args K)) :
  areSameKeybindingsWithSameCommand value1 value2
  = areSameKeybindingsWithSameCommand value2 value1.
Proof.
  unfold areSameKeybindingsWithSameCommand.
  by rewrite !(equals_sym isSameKeybinding _ (List.filter _ value2))
    by apply isSameKeybinding_sym.
Qed.

(** X18. Comparing in the other direction swaps [added] and [removed],
    and, for symmetric comparators of guards and arguments, marks the
    same keys as updated. *)
Theorem compare_reversed
    (from to :
       list (option string * list (IUserFriendlyKeybinding Args string)))
    (fromC toC : list (string * list (IUserFriendlyKeybinding Args string)))
    (normalizedKeys : gmap string string) :
  (added (compareByKeybinding to from) = removed (compareByKeybinding from to)
   /\ removed (compareByKeybinding to from)
      = added (compareByKeybinding from to)
   /\ forall k, k ∈ updated (compareByKeybinding to from)
                <-> k ∈ updated (compareByKeybinding from to))
  /\ (added (compareByCommand toC fromC normalizedKeys)
      = removed (compareByCommand fromC toC normalizedKeys)
      /\ removed (compareByCommand toC fromC normalizedKeys)
         = added (compareByCommand fromC toC normalizedKeys)
      /\ forall c, c ∈ updated (compareByCommand toC fromC normalizedKeys)
                   <-> c ∈ updated (compareByCommand fromC toC
                                      normalizedKeys)).
Proof.
  split; (split; [reflexivity | split; [reflexivity|]]).
  - intros k. rewrite !updated_compareByKeybinding.
    rewrite (equals_sym isSameKeybinding
               (map (with_key k) (get_group to k)))
      by apply isSameKeybinding_sym.
    tauto.
  - intros c. rewrite !updated_compareByCommand.
    rewrite (areSameKeybindingsWithSameCommand_sym
               (map _ (get_group toC c))).
    tauto.
Qed.

End reversed.

(** ** Merging without a base *)

Section no_base.
Context `{Collaborators}.

Implicit Types normalizedKeys : gmap string string.

Lemma noChanges_allAdded_byKeybinding
    (keybindings : list (IUserFriendlyKeybinding Args string))
    normalizedKeys :
  noChanges (allAdded (byKeybinding keybindings normalizedKeys))
  = match keybindings with [] => true | _ => false end.
Proof.
  unfold noChanges, allAdded. cbn [added removed updated set_empty].
  rewrite !andb_true_r.
  destruct keybindings as [|k l]; [reflexivity|].
  destruct (to_set _) as [|x s] eqn:E; [|reflexivity].
  assert (Hin : normalizedKeys !! key k
                ∈ to_set (map_keys (byKeybinding (k :: l) normalizedKeys))).
  { rewrite elem_of_to_set. apply recordsAt_nil_iff_not.
    unfold recordsAt. simpl. by rewrite bool_decide_eq_true_2. }
  rewrite E in Hin. inversion Hin.
Qed.

(** X19. Without a base (a [null] or an empty base text), when local and
    remote differ: an empty local document yields the remote text, an
    empty remote document yields the local text, both with
    [hasChanges = true] and no conflict; when both documents hold
    records [merge] goes on to the merge by command. *)
Theorem merge_no_base (localContent remoteContent : string)
    (baseContent : option string) normalizedKeys :
  let local := parse localContent in
  let remote := parse remoteContent in
  let keybindingsMergeResult :=
    computeMergeResultByKeybinding local remote None normalizedKeys in
  parseBase baseContent = None ->
  noChanges (compareByKeybinding (byKeybinding local normalizedKeys)
               (byKeybinding remote normalizedKeys)) = false ->
  (local = [] ->
   merge localContent remoteContent baseContent normalizedKeys
   = Output remoteContent true false)
  /\ (local <> [] -> remote = [] ->
      merge localContent remoteContent baseContent normalizedKeys
      = Output localContent true false)
  /\ (local <> [] -> remote <> [] ->
      hasLocalForwarded keybindingsMergeResult = true
      /\ hasRemoteForwarded keybindingsMergeResult = true
      /\ hasChanges
           (merge localContent remoteContent baseContent normalizedKeys)
         = true).
Proof.
  intros local remote kmr Hb Hlr. subst kmr.
  rewrite merge_eq. cbv zeta. rewrite Hb. fold local remote.
  rewrite computeMergeResultByKeybinding_eq. cbv zeta. rewrite Hlr.
  unfold baseToSideByKeybinding.
  rewrite !noChanges_allAdded_byKeybinding.
  split; [|split].
  - by intros ->.
  - intros Hl ->. by destruct local.
  - intros Hl Hr. destruct local; [done|]. destruct remote; [done|].
    simpl. by destruct (set_empty _).
Qed.

End no_base.

(** ** The sample collaborators honour the contracts *)

Module SampleFacts.
Import Sample.

#[local] Arguments String.append : simpl nomatch.
#[local] Existing Instance collaborators.

Lemma append_assoc (a b c : string) : (a +:+ b) +:+ c = a +:+ (b +:+ c).
Proof. induction a as [|x a IH]; simpl; [reflexivity | by rewrite IH]. Qed.

Lemma length_append_ge (a b : string) :
  String.length b <= String.length (a +:+ b).
Proof. induction a as [|x a IH]; simpl; lia. Qed.

Lemma dec_enc_string (s rest : string) :
  dec_string (enc_string s +:+ rest) = Some (s, rest).
Proof. induction s as [|c s IH]; simpl; [reflexivity | by rewrite IH]. Qed.

Lemma dec_enc_when (w : option string) (rest : string) :
  dec_when (enc_when w +:+ rest) = Some (w, rest).
Proof. destruct w; simpl; [by rewrite dec_enc_string | reflexivity]. Qed.

Lemma dec_enc_record (r : record) (rest : string) :
  dec_record (enc_record r +:+ rest) = Some (r, rest).
Proof.
  unfold enc_record, dec_record.
  rewrite !append_assoc, !dec_enc_string, dec_enc_when.
  by destruct r as [k c w []].
Qed.

Lemma length_serialize (l : list record) :
  length l <= String.length (serialize l).
Proof.
  induction l as [|r l IH]; simpl; [lia|].
  pose proof (length_append_ge (enc_record r) (serialize l)). lia.
Qed.

Lemma parse_fuel_serialize (l : list record) (fuel : nat) :
  length l <= fuel -> parse_fuel fuel (serialize l) = l.
Proof.
  revert fuel. induction l as [|r l IH]; intros fuel Hf.
  - by destruct fuel.
  - destruct fuel as [|fuel]; simpl in *; [lia|].
    rewrite dec_enc_record, IH; [reflexivity | lia].
Qed.

Lemma parse_serialize (l : list record) : parse_text (serialize l) = l.
Proof. apply parse_fuel_serialize, length_serialize. Qed.

Lemma sample_contract : editorContract (H := collaborators).
Proof.
  split; simpl; unfold edit_text, edit_list.
  - intros content eol i _. rewrite parse_serialize.
    destruct (Z.leb_spec 0 (Z.of_nat i)); [|lia]. by rewrite Nat2Z.id.
  - intros content eol i keybinding _. rewrite parse_serialize.
    destruct (Z.eqb_spec (Z.of_nat i) (-1)); [lia|].
    destruct (Z.leb_spec 0 (Z.of_nat i)); [|lia]. by rewrite Nat2Z.id.
Qed.

Lemma sample_expr_refl (e : string) : String.eqb e e = true.
Proof. apply String.eqb_refl. Qed.

(** ** Examples *)

(** Merging a document with itself. *)
Lemma merge_same_witness :
  sample_merge (serialize agreed) (serialize agreed) (Some (serialize agreed))
  = Output (serialize agreed) false false.
Proof.
  exact (proj2 (merge_same (H := collaborators) sample_expr_refl
                  (fun _ => eq_refl) (serialize agreed) None table)).
Defined.

(** The remote alone has moved, then the local alone. *)
Lemma merge_forwarded_witness :
  sample_merge (serialize forward_base) (serialize forward_remote)
    (Some (serialize forward_base))
  = Output (serialize forward_remote) true false
  /\ sample_merge (serialize forward_remote) (serialize forward_base)
       (Some (serialize forward_base))
     = Output (serialize forward_remote) true false.
Proof.
  split.
  - apply (merge_forwarded (H := collaborators) (serialize forward_base)
             (serialize forward_remote) (Some (serialize forward_base))
             table); vm_compute; reflexivity.
  - apply (merge_forwarded (H := collaborators) (serialize forward_remote)
             (serialize forward_base) (Some (serialize forward_base))
             table); vm_compute; reflexivity.
Defined.

(** A deletion racing an edit of the guard. *)
Lemma removed_and_updated_conflict_witness :
  hasConflicts
    (sample_merge (serialize race_local) (serialize race_remote)
       (Some (serialize race_base))) = true.
Proof.
  apply (proj2 (removed_and_updated_conflict (H := collaborators))
           (serialize race_local) (serialize race_remote)
           (Some (serialize race_base)) table "D").
  - vm_compute; reflexivity.
  - vm_compute; reflexivity.
  - left. split; vm_compute; left.
Defined.

(** Both sides rebind [k1]: the key is a binding-level conflict, no
    command is in conflict after the resolution by command, and the guard
    escalates the command [C] that the remote adds. *)
Lemma binding_conflicts_nonempty_counterexample :
  let keybindingsMergeResult :=
    computeMergeResultByKeybinding (H := collaborators)
      rebind_local rebind_remote (Some rebind_base) table in
  let r :=
    commandsMergeResult (H := collaborators)
      rebind_local rebind_remote (Some rebind_base) table in
  hasLocalForwarded keybindingsMergeResult = true
  /\ hasRemoteForwarded keybindingsMergeResult = true
  /\ conflicts keybindingsMergeResult = [Some "k1"]
  /\ conflicts keybindingsMergeResult <> []
  /\ ms_added r = ["C"]
  /\ ms_conflicts r = []
  /\ escalates (conflicts keybindingsMergeResult) table "C"
       (get_group (byCommand rebind_remote) "C") = true
  /\ hasConflicts
       (sample_merge (serialize rebind_local) (serialize rebind_remote)
          (Some (serialize rebind_base))) = true.
Proof. vm_compute. repeat split; discriminate. Qed.

(** The conflict block of the racing deletion and edit. *)
Lemma merge_conflict_block_witness :
  mergeContent
    (sample_merge (serialize race_local) (serialize race_remote)
       (Some (serialize race_base)))
  = "<<<<<<< local" +:+ newline +:+ serialize race_local +:+ newline
    +:+ "=======" +:+ newline +:+ serialize race_remote +:+ newline
    +:+ ">>>>>>> remote".
Proof.
  etransitivity;
    [exact (proj1 (proj2 (merge_conflict_block (H := collaborators)
              (serialize race_local) (serialize race_remote)
              (Some (serialize race_base)) table))
              ltac:(vm_compute; reflexivity))
    |vm_compute; reflexivity].
Defined.

(** The records of [A] are replaced in place by those of the remote. *)
Lemma updated_command_rewrite_witness :
  parse_text
    (updatedStep (H := collaborators) [] table (byCommand update_remote)
       newline (serialize update_local, []) "A").1
  = [rec "k3" "B"; guarded "k1" "A" "editorFocus"; rec "k2" "-A";
     rec "k2" "B"].
Proof.
  etransitivity;
    [exact (proj1 (proj2 (proj2 (updated_command_rewrite
              (H := collaborators) sample_contract [] table update_remote
              newline (serialize update_local) [] "A" 1
              ltac:(vm_compute; intros E; inversion E)
              ltac:(vm_compute; reflexivity)))))
    |vm_compute; reflexivity].
Defined.

(** Two spellings of one key are no update, at either level. *)
Lemma compare_updated_iff_witness :
  (Some "k1"
     ∉ updated (compareByKeybinding (H := collaborators)
                  (byKeybinding spelled_from table)
                  (byKeybinding spelled_to table)))
  /\ ("A" ∉ updated (compareByCommand (H := collaborators)
                       (byCommand spelled_from) (byCommand spelled_to)
                       table)).
Proof.
  destruct (compare_updated_iff (H := collaborators) sample_expr_refl
              (fun _ => eq_refl)
              (byKeybinding (H := collaborators) spelled_from table)
              (byKeybinding (H := collaborators) spelled_to table)
              (byCommand (H := collaborators) spelled_from)
              (byCommand (H := collaborators) spelled_to) table)
    as (_ & _ & Hk & Hc).
  split; [apply Hk | apply Hc]; vm_compute; repeat constructor.
Defined.

(** A guard on one record only makes two records unequal. *)
Lemma isSameKeybinding_iff_witness :
  isSameKeybinding (H := collaborators)
    (guarded "k1" "A" "editorFocus") (rec "k1" "A") = false.
Proof.
  apply (proj2 (isSameKeybinding_iff (H := collaborators)
                  (guarded "k1" "A" "editorFocus") (rec "k1" "A"))).
  vm_compute. discriminate.
Defined.

(** The interleaving of positive and negative entries is immaterial. *)
Lemma areSameKeybindingsWithSameCommand_iff_witness :
  areSameKeybindingsWithSameCommand (H := collaborators)
    interleaved1 interleaved2
  = areSameKeybindingsWithSameCommand (H := collaborators)
      interleaved1 interleaved1.
Proof.
  apply (proj2 (areSameKeybindingsWithSameCommand_iff (H := collaborators)
                  interleaved1 interleaved1));
    vm_compute; reflexivity.
Defined.

(** A command whose remote records are all negations is not escalated,
    even when their key is in conflict. *)
Lemma escalates_ignores_negated_witness :
  escalates (H := collaborators) [Some "k2"] table "A" [rec "k2" "-A"]
  = false.
Proof.
  apply (proj1 (proj2 (escalates_ignores_negated (H := collaborators)
                         [Some "k2"] table "A" [rec "k2" "-A"]))).
  repeat constructor.
Defined.

(** C6, at a document with a doubly negated command. The command [x]
    is in the [updated] set and in no conflict set, yet when its round
    comes the text holds no record of it: the round of the removed
    command [-x] has deleted them, because its test also selects the
    records of [x]. The location is -1, and the records of the remote
    are appended at the end in reverse order instead of being inserted,
    in their remote order, where the first record of [x] was. *)
Theorem updated_command_without_record :
  let localContent := serialize dashed_local in
  let remoteContent := serialize dashed_remote in
  let baseContent := serialize dashed_base in
  let r :=
    commandsMergeResult (H := collaborators) (parse_text localContent)
      (parse_text remoteContent) (Some (parse_text baseContent)) table in
  let out := sample_merge localContent remoteContent (Some baseContent) in
  ms_removed r = ["-x"] /\ ms_updated r = ["x"] /\ ms_conflicts r = []
  /\ hasChanges out = true /\ hasConflicts out = false
  /\ findFirstIndex (parse_text localContent) (hasCommand "x") = 0%Z
  /\ get_group (byCommand (parse_text remoteContent)) "x"
     = [guarded "k1" "-x" "f"; rec "k2" "-x"]
  /\ parse_text (removeKeybindings localContent newline "-x")
     = [rec "k3" "y"]
  /\ findFirstIndex
       (parse_text (removeKeybindings localContent newline "-x"))
       (hasCommand "x") = (-1)%Z
  /\ parse_text (mergeContent out)
     = [rec "k3" "y"; rec "k2" "-x"; guarded "k1" "-x" "f"]
  /\ parse_text (mergeContent out)
     <> [guarded "k1" "-x" "f"; rec "k2" "-x"; rec "k3" "y"].
Proof. vm_compute. repeat split; discriminate. Qed.

End SampleFacts.

(** ** Further examples on the sample collaborators *)

Module SampleExtras.
Import Sample.

#[local] Existing Instance collaborators.

Lemma sample_appends : appendContract (H := collaborators).
Proof.
  intros content eol keybinding. simpl. unfold edit_text, edit_list.
  by rewrite SampleFacts.parse_serialize.
Qed.

Lemma sample_expr_sym (e1 e2 : string) : String.eqb e1 e2 = String.eqb e2 e1.
Proof. apply String.eqb_sym. Qed.

(** Two records appended to a document. *)
Lemma addKeybindings_appends_witness :
  parse_text (addKeybindings (H := collaborators) (serialize forward_base)
                newline [rec "k2" "B"; rec "k3" "C"])
  = forward_base ++ [rec "k2" "B"; rec "k3" "C"].
Proof.
  etransitivity;
    [exact (proj1 (addKeybindings_appends (H := collaborators)
                     sample_appends (serialize forward_base) newline
                     [rec "k2" "B"; rec "k3" "C"]))
    |vm_compute; reflexivity].
Defined.

(** Updating a command that the document lacks appends in reverse. *)
Lemma updateKeybindings_absent_witness :
  parse_text (updateKeybindings (H := collaborators)
                (serialize forward_base) newline "Z"
                [rec "k2" "Z"; rec "k3" "Z"])
  = forward_base ++ [rec "k3" "Z"; rec "k2" "Z"].
Proof.
  etransitivity;
    [exact (proj2 (updateKeybindings_absent (H := collaborators)
                     sample_appends (serialize forward_base) newline "Z"
                     [rec "k2" "Z"; rec "k3" "Z"]
                     ltac:(vm_compute; repeat constructor)))
    |vm_compute; reflexivity].
Defined.

(** Removing the records of [A] keeps the records of [B]. *)
Lemma removeKeybindings_spec_witness :
  parse_text (removeKeybindings (H := collaborators)
                (serialize update_local) newline "A")
  = [rec "k3" "B"; rec "k2" "B"].
Proof.
  etransitivity;
    [exact (proj1 (removeKeybindings_spec (H := collaborators)
                     SampleFacts.sample_contract (serialize update_local)
                     newline "A"))
    |vm_compute; reflexivity].
Defined.

(** Updating [A] leaves the group of [B] as it was. *)
Lemma edits_by_group_witness :
  recordsOf (H := collaborators) "B"
    (parse_text (updateKeybindings (H := collaborators)
                   (serialize update_local) newline "A"
                   [guarded "k1" "A" "editorFocus"; rec "k2" "-A"]))
  = [rec "k3" "B"; rec "k2" "B"].
Proof.
  etransitivity;
    [exact (proj1 (proj2 (edits_by_group (H := collaborators)
                            SampleFacts.sample_contract sample_appends
                            (serialize update_local) newline "A"
                            [guarded "k1" "A" "editorFocus"; rec "k2" "-A"]
                            eq_refl))
              ltac:(vm_compute; discriminate)
              ltac:(vm_compute; reflexivity) "B")
    |vm_compute; reflexivity].
Defined.

(** The command that the remote adds arrives with the remote's records. *)
Lemma assemble_by_command_witness :
  recordsOf (H := collaborators) "C"
    (parse_text
       (assemble (H := collaborators) [] table diverge_remote
          (commandsMergeResult (H := collaborators)
             (parse_text (serialize diverge_local)) diverge_remote
             (Some diverge_base) table)
          (serialize diverge_local)).1)
  = recordsOf (H := collaborators) "C" diverge_remote.
Proof.
  apply (proj1 (proj2 (assemble_by_command (H := collaborators)
                         SampleFacts.sample_contract sample_appends
                         [] table (serialize diverge_local) diverge_remote
                         (Some diverge_base)
                         ltac:(intros b Hb; injection Hb as <-;
                               repeat constructor) "C"))).
  - vm_compute. intros E. inversion E.
  - right. left. vm_compute. left.
Defined.

(** A merge of two independent additions. *)
Lemma merge_by_command_witness :
  recordsOf (H := collaborators) "C"
    (parse_text
       (mergeContent
          (sample_merge (serialize diverge_local) (serialize diverge_remote)
             (Some (serialize diverge_base)))))
  = [rec "k3" "C"].
Proof.
  etransitivity;
    [apply (merge_by_command (H := collaborators)
              SampleFacts.sample_contract sample_appends
              (serialize diverge_local) (serialize diverge_remote)
              (Some (serialize diverge_base)) table);
     [intros b Hb; vm_compute in Hb; injection Hb as <-; repeat constructor
     |vm_compute; reflexivity
     |vm_compute; reflexivity
     |vm_compute; reflexivity]
    |vm_compute; reflexivity].
Defined.

(** Another order and another spelling are no change. *)
Lemma merge_same_by_key_witness :
  sample_merge (serialize respelled_local) (serialize respelled_remote) None
  = Output (serialize respelled_local) false false.
Proof.
  unfold sample_merge.
  apply (merge_same_by_key (H := collaborators) SampleFacts.sample_expr_refl
           (fun _ => eq_refl) (serialize respelled_local)
           (serialize respelled_remote) None table).
  intros k. cbn [parse collaborators].
  rewrite !SampleFacts.parse_serialize.
  assert (T1 : table !! "k1" = Some "k1") by (vm_compute; reflexivity).
  assert (T2 : table !! "K1" = Some "k1") by (vm_compute; reflexivity).
  assert (T3 : table !! "k2" = Some "k2") by (vm_compute; reflexivity).
  unfold recordsAt, respelled_local, respelled_remote, rec.
  cbn [List.filter key]. rewrite T1, T2, T3.
  repeat case_bool_decide; simplify_eq;
    repeat constructor; cbn [key]; by rewrite ?T1, ?T2, ?T3.
Defined.

(** What the remote lacks is what the local has in addition. *)
Lemma compare_reversed_witness :
  added (compareByKeybinding (H := collaborators)
           (byKeybinding forward_remote table)
           (byKeybinding forward_base table))
  = removed (compareByKeybinding (H := collaborators)
               (byKeybinding forward_base table)
               (byKeybinding forward_remote table)).
Proof.
  exact (proj1 (proj1 (compare_reversed (H := collaborators) sample_expr_sym
                         (fun _ _ => eq_refl)
                         (byKeybinding (H := collaborators) forward_base
                            table)
                         (byKeybinding (H := collaborators) forward_remote
                            table)
                         [] [] table))).
Defined.

(** Without a base an empty local document takes the remote text. *)
Lemma merge_no_base_witness :
  sample_merge (serialize []) (serialize forward_base) None
  = Output (serialize forward_base) true false.
Proof.
  apply (merge_no_base (H := collaborators) (serialize [])
           (serialize forward_base) None table).
  - reflexivity.
  - vm_compute. reflexivity.
  - vm_compute. reflexivity.
Defined.

End SampleExtras.
